(** * Battery-cycler stream analysis: [src/spark/cycle_step_analysis.py]

    A shallow embedding of the Spark job that turns Kafka telemetry lines into
    per-key capacity, energy and power sums and sends them to Cassandra in
    CQL batches, together with the properties its specification states.

    Conventions of the embedding:
    - a Python [float] is an IEEE-754 binary64 number: Rocq's primitive
      [float], with the kernel's operations;
    - a Python [int] is a [Z];
    - a Python string is a [string] of ASCII characters;
    - a Python exception is the [Raise] branch of [result];
    - one micro-batch of the DStream (one window) is a [list] processed as a
      single partition, in arrival order;
    - the dictionary [reduceByKey] folds into is a [gmap]. *)

From Stdlib Require Import ZArith List String Ascii Floats Lia.
From stdpp Require Import base option list gmap strings.

Open Scope Z_scope.

(** ** Exceptions *)

Inductive exn : Type :=
| IndexError
| ValueError.

Inductive result (A : Type) : Type :=
| Ok (a : A)
| Raise (e : exn).

Arguments Ok {A} a.
Arguments Raise {A} e.

#[export] Instance result_ret : MRet result := fun _ a => Ok a.
#[export] Instance result_bind : MBind result := fun _ _ f m =>
  match m with
  | Ok a => f a
  | Raise e => Raise e
  end.
#[export] Instance result_fmap : FMap result := fun _ _ f m =>
  match m with
  | Ok a => Ok (f a)
  | Raise e => Raise e
  end.

(** ** Python string operations used by the job *)

Module Str.

(** The characters [str.strip()] removes, in the ASCII range:
    tab, line feed, vertical tab, form feed, carriage return, the four
    separators 0x1c-0x1f, and space. *)
Definition isspace (c : ascii) : bool :=
  let n := nat_of_ascii c in
  ((9 <=? n)%nat && (n <=? 13)%nat)
  || ((28 <=? n)%nat && (n <=? 31)%nat)
  || (n =? 32)%nat.

Fixpoint lstrip (s : string) : string :=
  match s with
  | EmptyString => EmptyString
  | String c s' => if isspace c then lstrip s' else s
  end.

Fixpoint rstrip (s : string) : string :=
  match s with
  | EmptyString => EmptyString
  | String c s' =>
      match rstrip s' with
      | EmptyString => if isspace c then EmptyString else String c EmptyString
      | r => String c r
      end
  end.

(** [s.strip()] *)
Definition strip (s : string) : string := rstrip (lstrip s).

(** [s.split(sep)] for a one-character separator: never empty. *)
Fixpoint split (sep : ascii) (s : string) : list string :=
  match s with
  | EmptyString => [EmptyString]
  | String c s' =>
      if Ascii.eqb c sep then EmptyString :: split sep s'
      else match split sep s' with
           | f :: fs => String c f :: fs
           | [] => [String c EmptyString]
           end
  end.

(** [c.upper()] on one ASCII character. *)
Definition upper (c : ascii) : ascii :=
  let n := nat_of_ascii c in
  if ((97 <=? n)%nat && (n <=? 122)%nat)%bool then ascii_of_nat (n - 32) else c.

(** [s[0]]: raises [IndexError] on the empty string. *)
Definition head (s : string) : result ascii :=
  match s with
  | EmptyString => Raise IndexError
  | String c _ => Ok c
  end.

End Str.

(** [x[i]] on a tuple, for a non-negative literal index. *)
Definition item {A} (x : list A) (i : nat) : result A :=
  match x !! i with
  | Some a => Ok a
  | None => Raise IndexError
  end.

(** ** The data the job passes between its stages *)

(** One Kafka message: [(key, value)]; the job reads [ln[1]]. *)
Definition message : Type := (string * string)%type.

(** [(battery id, group, cycle, step)] *)
Definition key : Type := (string * string * Z * string)%type.

(** [(date-time, voltage, current, prev_voltage, step_time)] *)
Definition measurement : Type := (string * float * float * float * float)%type.

(** [(capacity, energy, power, counts)] *)
Definition metrics : Type := (float * float * float * Z)%type.

(** [(step, group, cycle, battery id, capacity, energy, power, counts)] *)
Definition summary : Type :=
  (string * string * Z * string * float * float * float * Z)%type.

(** [(group, cycle, battery id, metric)]: what one database sink receives. *)
Definition entry : Type := (string * Z * string * float)%type.

Definition key_cycle (k : key) : Z := let '(_, _, c, _) := k in c.

Definition capacity (v : metrics) : float := let '(c, _, _, _) := v in c.
Definition energy (v : metrics) : float := let '(_, e, _, _) := v in e.
Definition power (v : metrics) : float := let '(_, _, p, _) := v in p.
Definition counts (v : metrics) : Z := let '(_, _, _, n) := v in n.

Definition summary_step (x : summary) : string :=
  let '(s, _, _, _, _, _, _, _) := x in s.
Definition summary_group (x : summary) : string :=
  let '(_, g, _, _, _, _, _, _) := x in g.
Definition summary_cycle (x : summary) : Z :=
  let '(_, _, c, _, _, _, _, _) := x in c.
Definition summary_id (x : summary) : string :=
  let '(_, _, _, b, _, _, _, _) := x in b.
Definition summary_capacity (x : summary) : float :=
  let '(_, _, _, _, c, _, _, _) := x in c.
Definition summary_energy (x : summary) : float :=
  let '(_, _, _, _, _, e, _, _) := x in e.
Definition summary_power (x : summary) : float :=
  let '(_, _, _, _, _, _, p, _) := x in p.
Definition summary_counts (x : summary) : Z :=
  let '(_, _, _, _, _, _, _, n) := x in n.

(** The aggregation key a summary row was built from. *)
Definition summary_key (x : summary) : key :=
  (summary_id x, summary_group x, summary_cycle x, summary_step x).

(** ** [summarize_step_data] *)

Definition DELTA_TIME : float := 1.0%float.
Definition CAP_CONVERSION : float := 3.6e6%float.
Definition ENG_CONVERSION : float := 3.6e6%float.
Definition PWR_CONVERSION : float := 1.0e3%float.

(** [parsed_rdd]: strip the value, split it on commas, strip every field. *)
Definition parsed (ln : message) : list string :=
  Str.strip <$> Str.split "," (Str.strip ln.2).

Section Paired.

(** Python's [int(s)] and [float(s)] on a string: a value, or
    [ValueError]. *)
Variable py_int : string -> option Z.
Variable py_float : string -> option float.

Definition int (s : string) : result Z :=
  match py_int s with
  | Some n => Ok n
  | None => Raise ValueError
  end.

Definition float_ (s : string) : result float :=
  match py_float s with
  | Some f => Ok f
  | None => Raise ValueError
  end.

(** [paired_rdd]: the nine positions, read and converted left to right. *)
Definition paired (x : list string) : result (key * measurement) :=
  x0 ← item x 0;
  x1 ← item x 1;
  x2 ← item x 2 ≫= int;
  x3 ← item x 3;
  x4 ← item x 4;
  x5 ← item x 5 ≫= float_;
  x6 ← item x 6 ≫= float_;
  x7 ← item x 7 ≫= float_;
  x8 ← item x 8 ≫= float_;
  mret ((x0, x1, x2, x3), (x4, x5, x6, x7, x8)).

(** The Record Parser: a message to a typed reading. *)
Definition parse (ln : message) : result (key * measurement) :=
  paired (parsed ln).

End Paired.

(** [inst_rdd]: the capacity, energy and power of one reading, and a count
    of one.  The integer literal [2] is converted to a float by Python's
    mixed arithmetic. *)
Definition inst (x : key * measurement) : key * metrics :=
  let '(k, (_, voltage, current, prev_voltage, _)) := x in
  (k,
   ((current * DELTA_TIME / CAP_CONVERSION)%float,
    (current * (voltage + prev_voltage) * DELTA_TIME
     / (2 * ENG_CONVERSION))%float,
    (current * voltage / PWR_CONVERSION)%float,
    1)).

(** The function given to [reduceByKey]: [lambda i, j: (i[0] + j[0], ...)]. *)
Definition combine (i j : metrics) : metrics :=
  ((capacity i + capacity j)%float,
   (energy i + energy j)%float,
   (power i + power j)%float,
   counts i + counts j).

(** [reduceByKey] on one partition: PySpark merges each pair into a
    dictionary, [d[k] = func(d[k], v) if k in d else v]. *)
Definition merge_value {V} (func : V -> V -> V) (d : gmap key V)
    (kv : key * V) : gmap key V :=
  let '(k, v) := kv in
  <[k := match d !! k with Some a => func a v | None => v end]> d.

Definition merge_values {V} (func : V -> V -> V) (rdd : list (key * V))
    : gmap key V :=
  foldl (merge_value func) ∅ rdd.

Definition reduceByKey {V} (func : V -> V -> V) (rdd : list (key * V))
    : list (key * V) :=
  map_to_list (merge_values func rdd).

(** [total_rdd] *)
Definition total (rdd : list (key * measurement)) : list (key * metrics) :=
  reduceByKey combine (inst <$> rdd).

(** [summary_rdd]: key and value re-organised for the CQL interpolation. *)
Definition summarize (x : key * metrics) : summary :=
  let '((id, group, cycle, step), (cap, eng, pwr, n)) := x in
  (step, group, cycle, id, cap, eng, pwr, n).

(** [x[0][0].upper() == letter] *)
Definition step_is (letter : ascii) (x : summary) : result bool :=
  Str.head (summary_step x) ≫= fun c : ascii =>
  mret (Ascii.eqb (Str.upper c) letter).

(** [rdd.filter(p)] where the predicate may raise. *)
Fixpoint rdd_filter {A} (p : A -> result bool) (rdd : list A)
    : result (list A) :=
  match rdd with
  | [] => mret []
  | x :: rdd' =>
      p x ≫= fun b : bool =>
      rdd_filter p rdd' ≫= fun rest =>
      mret (if b then x :: rest else rest)
  end.

(** The Step Router: [discharge_rdd] and [charge_rdd]. *)
Definition route (summary_rdd : list summary)
    : result (list summary * list summary) :=
  discharge_rdd ← rdd_filter (step_is "D") summary_rdd;
  charge_rdd ← rdd_filter (step_is "C") summary_rdd;
  mret (discharge_rdd, charge_rdd).

(** Everything after [paired_rdd], on the readings of one window. *)
Definition summary_rdd (rdd : list (key * measurement)) : list summary :=
  summarize <$> total rdd.

Section Summarize.

Variable py_int : string -> option Z.
Variable py_float : string -> option float.

Definition summarize_step_data (kafka_stream : list message)
    : result (list summary * list summary) :=
  paired_rdd ← mapM (parse py_int py_float) kafka_stream;
  route (summary_rdd paired_rdd).

End Summarize.

(** ** [send_partition] *)

(** The prepared command
    [UPDATE <table> SET metric = ? + metric
     WHERE group = ? AND cycle = ? AND id = ?]
    with its four parameters.  The first one, for [? + metric], is a
    [cassq.ValueSequence]: a sequence of values, not a bare number. *)
Record cql := Update {
  cql_table : string;
  cql_metric : list float;
  cql_group : string;
  cql_cycle : Z;
  cql_id : string
}.

(** The row of a table a command addresses: [(group, cycle, id)]. *)
Definition row : Type := (string * Z * string)%type.

Definition cql_row (c : cql) : row := (cql_group c, cql_cycle c, cql_id c).

(** [cql_batch.add(cql_command, parameters=
    [cassq.ValueSequence((e[3],)), e[0], e[1], e[2]])]: the metric is bound
    as a sequence of one value. *)
Definition bind_entry (table_name : string) (e : entry) : cql :=
  let '(e0, e1, e2, e3) := e in
  Update table_name [e3] e0 e1 e2.

(** The loop state: the open batch, its size counter, and the batches
    handed to [db_session.execute] so far, oldest first. *)
Record sender := Sender {
  cql_batch : list cql;
  batch_size : Z;
  executed : list (list cql)
}.

Definition sender_init : sender := Sender [] 0 [].

(** One iteration of [for e in entries]. *)
Definition send_entry (table_name : string) (crit_size : Z) (s : sender)
    (e : entry) : sender :=
  let batch := cql_batch s ++ [bind_entry table_name e] in
  let size := batch_size s + 1 in
  if size =? crit_size
  then Sender [] 0 (executed s ++ [batch])
  else Sender batch size (executed s).

(** [send_partition(entries, table_name, crit_size)]: the batches executed,
    in order; the last one is the final, unconditional [execute]. *)
Definition send_partition (entries : list entry) (table_name : string)
    (crit_size : Z) : list (list cql) :=
  let s := foldl (send_entry table_name crit_size) sender_init entries in
  executed s ++ [cql_batch s].

(** The default [crit_size=500]. *)
Definition default_crit_size : Z := 500.

(** [save_to_database] on one micro-RDD held in one partition. *)
Definition save_to_database (input_rdd : list entry) (table_name : string)
    : list (list cql) :=
  send_partition input_rdd table_name default_crit_size.

(** ** The main module: four sinks *)

Definition capacity_entry (x : summary) : entry :=
  (summary_group x, summary_cycle x, summary_id x, summary_capacity x).

Definition energy_entry (x : summary) : entry :=
  (summary_group x, summary_cycle x, summary_id x, summary_energy x).

(** The four [save_to_database] calls, in program order. *)
Definition sinks (rdds : list summary * list summary)
    : list (list (list cql)) :=
  let '(discharge_rdd, charge_rdd) := rdds in
  [ save_to_database (capacity_entry <$> discharge_rdd) "discharge_capacity";
    save_to_database (capacity_entry <$> charge_rdd) "charge_capacity";
    save_to_database (energy_entry <$> discharge_rdd) "discharge_energy";
    save_to_database (energy_entry <$> charge_rdd) "charge_energy" ].

(** ** The destination store *)

Section Store.

(** The schema of the four tables is not part of the source, so the type of
    the column [metric] and the [+] of [? + metric] on it are parameters:
    [plus vs old] is what [? + metric] leaves in a row when [?] is bound to
    the sequence [vs] and the row holds [old]; [None] stands for no row. *)
Context {V : Type}.
Variable plus : list float -> option V -> option V.

(** Modelled from the spec: the Cassandra keyspace, which is not part of the
    source.  Each of the four tables has the primary key
    [(group, cycle, id)] and the column [metric]; the store maps a table
    name and a row to what the row holds. *)
Definition store : Type := gmap (string * row) V.

(** Modelled from the spec: the execution of the prepared command, which is
    Cassandra's and not part of the source.  The command acts on the row
    [(group, cycle, id)] of its table and on no other: it leaves there
    [? + metric], taken of the bound sequence and of what the row held. *)
Definition execute_cql (db : store) (c : cql) : store :=
  partial_alter (plus (cql_metric c)) (cql_table c, cql_row c) db.

(** Modelled from the spec: [db_session.execute(cql_batch)] executes the
    commands of a batch in order. *)
Definition execute (db : store) (batch : list cql) : store :=
  foldl execute_cql db batch.

(** The effect of all the batches a [send_partition] call executes. *)
Definition execute_all (db : store) (batches : list (list cql)) : store :=
  foldl execute db batches.

End Store.

Arguments store : clear implicits.

(** Modelled from the spec: the [+] of the Batch Writer contract on a numeric
    column, which is the keyspace's and not part of the source.  Every value
    of the bound sequence is added to the stored value ([? + metric], in
    this order), and an absent row is created with the value. *)
Definition add_metric (vs : list float) (old : option float)
    : option float :=
  foldr (fun v stored =>
           Some match stored with
                | Some metric => (v + metric)%float
                | None => v
                end) old vs.

(** ** Python's [int] and [float] on ASCII decimal literals

    [summarize_step_data] is stated for any behaviour of the two builtins.
    The concrete runs below use these conversions: optional surrounding
    whitespace, an optional sign, and
    - for [int]: one or more decimal digits;
    - for [float]: [inf], [infinity] or [nan] in any letter case, or decimal
      digits with an optional fraction and an optional exponent, rounded to
      the nearest binary64 number, ties to even. *)
Module Builtin.

Definition digit (c : ascii) : option Z :=
  let n := nat_of_ascii c in
  if ((48 <=? n)%nat && (n <=? 57)%nat)%bool
  then Some (Z.of_nat n - 48) else None.

(** The longest prefix of digits: its value continuing [acc], how many
    digits it has, and the rest of the string. *)
Fixpoint digits (s : string) (acc : Z) (n : nat) : Z * nat * string :=
  match s with
  | EmptyString => (acc, n, EmptyString)
  | String c s' =>
      match digit c with
      | Some d => digits s' (10 * acc + d) (S n)
      | None => (acc, n, s)
      end
  end.

(** An optional sign: [true] for a minus. *)
Definition sign (s : string) : bool * string :=
  match s with
  | String "-" s' => (true, s')
  | String "+" s' => (false, s')
  | _ => (false, s)
  end.

Definition py_int (s : string) : option Z :=
  let '(neg, s1) := sign (Str.strip s) in
  match digits s1 0 0 with
  | (m, S _, EmptyString) => Some (if neg then - m else m)
  | _ => None
  end.

Definition lower (c : ascii) : ascii :=
  let n := nat_of_ascii c in
  if ((65 <=? n)%nat && (n <=? 90)%nat)%bool then ascii_of_nat (n + 32) else c.

Fixpoint lowercase (s : string) : string :=
  match s with
  | EmptyString => EmptyString
  | String c s' => String (lower c) (lowercase s')
  end.

(** The exponent part: empty, or [e] or [E], an optional sign and digits. *)
Definition exponent (s : string) : option Z :=
  match s with
  | EmptyString => Some 0
  | String c s' =>
      if Ascii.eqb (lower c) "e" then
        let '(neg, s1) := sign s' in
        match digits s1 0 0 with
        | (x, S _, EmptyString) => Some (if neg then - x else x)
        | _ => None
        end
      else None
  end.

(** [m * 10 ^ e] for [0 < m], rounded once to binary64. *)
Definition round_decimal (m e : Z) : float :=
  if 0 <=? e
  then SF2Prim (binary_normalize prec emax (m * 10 ^ e) 0 false)
  else SF2Prim (SFdiv prec emax
                  (S754_finite false (Z.to_pos m) 0)
                  (S754_finite false (Z.to_pos (10 ^ (- e))) 0)).

Definition decimal (neg : bool) (m e : Z) : float :=
  let f := if m =? 0 then 0%float else round_decimal m e in
  if neg then (- f)%float else f.

Definition py_float (s : string) : option float :=
  let '(neg, s1) := sign (Str.strip s) in
  let word := lowercase s1 in
  if (String.eqb word "inf" || String.eqb word "infinity")%bool
  then Some (if neg then neg_infinity else infinity)
  else if String.eqb word "nan" then Some nan
  else
    let '(m1, n1, s2) := digits s1 0 0 in
    let '(m, n2, s3) :=
      match s2 with
      | String "." s2' => digits s2' m1 0
      | _ => (m1, 0%nat, s2)
      end in
    match (n1 + n2)%nat, exponent s3 with
    | S _, Some x => Some (decimal neg m (x - Z.of_nat n2))
    | _, _ => None
    end.

End Builtin.

(** ** The specification's formulas and example data *)

Module Spec.

(** The per-reading contribution as the specification writes it, with
    [DELTA_TIME = 1.0], [CAP_CONVERSION = ENG_CONVERSION = 3.6e6] and
    [PWR_CONVERSION = 1.0e3]. *)
Definition contribution (voltage current previous_voltage : float)
    : metrics :=
  ((current * 1.0 / 3.6e6)%float,
   (current * (voltage + previous_voltage) * 1.0 / (2 * 3.6e6))%float,
   (current * voltage / 1.0e3)%float,
   1).

(** [ceil(n / b)] for a positive [b]. *)
Definition ceil_div (n b : Z) : Z := (n + b - 1) / b.

(** The size the specification gives the final batch of [n] records. *)
Definition final_batch_size (n b : Z) : Z :=
  if ((n mod b =? 0) && (0 <? n))%bool then b else n mod b.

(** The first character of the step, uppercased, is [letter]. *)
Definition step_type (letter : ascii) (x : summary) : bool :=
  match summary_step x with
  | EmptyString => false
  | String c _ => Ascii.eqb (Str.upper c) letter
  end.

(** The three ways the specification says a record is malformed. *)
Definition field_count_mismatch (x : list string) : bool :=
  negb (length x =? 9)%nat.

Definition rejects {A} (conv : string -> option A) (x : list string)
    (i : nat) : bool :=
  match x !! i with
  | Some s => match conv s with Some _ => false | None => true end
  | None => false
  end.

Definition non_numeric (py_int : string -> option Z)
    (py_float : string -> option float) (x : list string) : bool :=
  rejects py_int x 2 || rejects py_float x 5 || rejects py_float x 6
  || rejects py_float x 7 || rejects py_float x 8.

Definition empty_identifier (x : list string) : bool :=
  existsb
    (fun i : nat =>
       match x !! i with
       | Some s => String.eqb s ""
       | None => false
       end)
    [0; 1; 3]%nat.

Definition malformed (py_int : string -> option Z)
    (py_float : string -> option float) (ln : message) : bool :=
  let x := parsed ln in
  field_count_mismatch x || non_numeric py_int py_float x
  || empty_identifier x.

End Spec.

(** What the code checks: nine positions exist and the five numeric ones
    convert. *)
Definition too_short (x : list string) : bool := (length x <? 9)%nat.

(** How many readings of a window carry the key [k]. *)
Definition readings_of {V} (k : key) (rdd : list (key * V)) : Z :=
  Z.of_nat (length (filter (fun x => x.1 = k) rdd)).

(** The sample count a dictionary holds for [k]: zero when absent. *)
Definition count_of (d : gmap key metrics) (k : key) : Z :=
  match d !! k with
  | Some a => counts a
  | None => 0
  end.

Module Example.

(** The specification's end-to-end example. *)
Definition window : list message :=
  [ ("", "bat1,g1,1,D1,t,4.0,2.0,3.9,0");
    ("", "bat1,g1,1,D1,t,4.1,2.0,4.0,0") ].

Definition k1 : key := ("bat1", "g1", 1, "D1").

(** Three readings of one key whose capacities do not add up the same
    way in every order. *)
Definition r_a : key * measurement :=
  (k1, ("t", 4.0, 3.6e22, 4.0, 0.0)%float).
Definition r_b : key * measurement :=
  (k1, ("t", 4.0, -3.6e22, 4.0, 0.0)%float).
Definition r_c : key * measurement :=
  (k1, ("t", 4.0, 3.6e6, 4.0, 0.0)%float).

(** A discharge reading with a negative current after a positive one. *)
Definition falling : list message :=
  [ ("", "bat1,g1,1,D1,t,4.0,2.0,3.9,0");
    ("", "bat1,g1,1,D1,t,4.0,-2.0,3.9,1") ].

(** Records the specification calls malformed. *)
Definition no_battery_id : message := ("", ",g1,1,D1,t,4.0,2.0,3.9,0").
Definition no_step : message := ("", "bat1,g1,1,,t,4.0,2.0,3.9,0").
Definition ten_fields : message :=
  ("", "bat1,g1,1,D1,t,4.0,2.0,3.9,0,extra").

Definition negative_cycle : message :=
  ("", "bat1,g1,-3,D1,t,4.0,2.0,3.9,0").

(** Two discharge steps of one battery, group and cycle. *)
Definition two_steps : list message :=
  [ ("", "bat1,g1,1,D1,t,4.0,2.0,4.0,0");
    ("", "bat1,g1,1,D2,t,4.0,3.0,4.0,0") ].

Definition e1 : entry := ("g1", 1, "bat1", 1.5%float).

Definition x_d1 : summary :=
  ("d1", "g1", 1, "bat1", 1.0%float, 2.0%float, 3.0%float, 1).
Definition x_C : summary :=
  ("C", "g1", 1, "bat1", 1.0%float, 2.0%float, 3.0%float, 1).
Definition x_x : summary :=
  ("x", "g1", 1, "bat1", 1.0%float, 2.0%float, 3.0%float, 1).
Definition x_empty : summary :=
  ("", "g1", 1, "bat1", 1.0%float, 2.0%float, 3.0%float, 1).
Definition x_D1 : summary :=
  ("D1", "g1", 1, "bat1", 1.0%float, 2.0%float, 3.0%float, 1).
Definition x_D2 : summary :=
  ("D2", "g1", 1, "bat1", 4.0%float, 5.0%float, 6.0%float, 1).

End Example.

(** ** Auxiliary notions for binary64 rounding *)

(** The record [r] is [M] shifted right by [k] bits: its mantissa is the
    quotient, and its round and sticky bits are both clear exactly when no
    set bit was shifted out. *)
Definition shr_inv (M k : Z) (r : shr_record) : Prop :=
  shr_m r = M / 2 ^ k
  /\ (orb (shr_r r) (shr_s r) = false <-> M mod 2 ^ k = 0).

(** The float made of a rounded mantissa [m2] at exponent [e1]: one more
    shift when rounding carried into a new bit, then zero, a finite number
    or an infinity. *)
Definition rounded (prec emax : Z) (s : bool) (m2 e1 : Z) : spec_float :=
  let k2 := Z.max 0 (fexp prec emax (Zdigits2 m2 + e1) - e1) in
  match m2 / 2 ^ k2 with
  | 0 => S754_zero s
  | Z.pos p =>
      if e1 + k2 <=? emax - prec then S754_finite s p (e1 + k2)
      else S754_infinity s
  | Z.neg _ => S754_nan
  end.

(** The mantissa [mx] is in canonical form at exponent [ex]. *)
Definition canon (prec emax : Z) (mx : positive) (ex : Z) : Prop :=
  fexp prec emax (Z.log2 (Z.pos mx) + 1 + ex) = ex.

(** A float that is NaN or not below zero. *)
Definition not_negative (x : spec_float) : Prop :=
  x = S754_nan \/ SFleb (S754_zero false) x = true.

Definition float_not_negative (x : float) : Prop :=
  PrimFloat.is_nan x = true \/ (0 <=? x)%float = true.

(** ** Invariants of the [send_partition] loop *)

(** After the entries [sent]: every bound command is in an executed batch or
    in the open one, in order, and the counter is the open batch's size. *)
Record sender_inv (table : string) (sent : list entry) (s : sender)
    : Prop := {
  inv_concat : concat (executed s) ++ cql_batch s = bind_entry table <$> sent;
  inv_size : Z.of_nat (length (cql_batch s)) = batch_size s
}.

(** For a positive threshold [B], after [n] entries: the counter stays
    below [B] and every executed batch is full. *)
Record sender_full (B : Z) (n : Z) (s : sender) : Prop := {
  full_range : 0 <= batch_size s < B;
  full_count : n = B * Z.of_nat (length (executed s)) + batch_size s;
  full_batches : Forall (fun b => Z.of_nat (length b) = B) (executed s)
}.

(** Case analysis on every conversion [py_int s] or [py_float s] in the
    goal. *)
Ltac some_or_none :=
  repeat match goal with
    | |- context [?f ?s] =>
        match type of (f s) with
        | option _ => is_var f; destruct (f s) eqn:?
        end
    end.

(** ** Text of a line: what [split] and [strip] are stated against *)

Module Text.

(** [c in s] *)
Fixpoint contains (c : ascii) (s : string) : bool :=
  match s with
  | EmptyString => false
  | String a s' => Ascii.eqb a c || contains c s'
  end.

(** [s.count(c)] *)
Fixpoint occurrences (c : ascii) (s : string) : nat :=
  match s with
  | EmptyString => 0
  | String a s' => (if Ascii.eqb a c then 1 else 0) + occurrences c s'
  end.

(** [sep.join(l)] *)
Fixpoint join (sep : ascii) (l : list string) : string :=
  match l with
  | [] => EmptyString
  | [s] => s
  | s :: l' => s ++ String sep (join sep l')
  end.

(** The last character of a string, if any. *)
Fixpoint last_char (s : string) : option ascii :=
  match s with
  | EmptyString => None
  | String c EmptyString => Some c
  | String _ s' => last_char s'
  end.

(** Neither the first nor the last character is white space. *)
Definition trimmed (s : string) : Prop :=
  match s with
  | EmptyString => True
  | String c _ => Str.isspace c = false
  end
  /\ match last_char s with
     | None => True
     | Some c => Str.isspace c = false
     end.

(** A function applied to the first, or to the last, element of a list. *)
Definition map_head {A} (f : A -> A) (l : list A) : list A :=
  match l with
  | [] => []
  | x :: l' => f x :: l'
  end.

Fixpoint map_last {A} (f : A -> A) (l : list A) : list A :=
  match l with
  | [] => []
  | [x] => [f x]
  | x :: l' => x :: map_last f l'
  end.

End Text.

Import Text.

(** ** Keys and their values *)

(** [x[0][3]] of a key-value pair: the step of its key. *)
Definition key_step (k : key) : string := let '(_, _, _, s) := k in s.

(** Python's [reduce(func, values)] without an initial value; [None] stands
    for the empty sequence, which [reduceByKey] never reduces. *)
Definition reduce {V} (func : V -> V -> V) (values : list V) : option V :=
  match values with
  | [] => None
  | v :: values' => Some (foldl func v values')
  end.

(** The values a window holds for the key [k], in arrival order. *)
Definition values_of {V} (k : key) (rdd : list (key * V)) : list V :=
  (filter (fun kv => kv.1 = k) rdd).*2.

(** The sample counts of a list of summary rows, added up. *)
Definition sum_counts (rows : list summary) : Z :=
  foldr Z.add 0 (summary_counts <$> rows).

(** The same for the rows a dictionary of accumulators yields. *)
Definition map_counts (d : gmap key metrics) : Z :=
  sum_counts (summarize <$> map_to_list d).

(** ** Partitions, micro-RDDs and the sender's session *)

(** The command a sink binds for a summary row: the table, one of the row's
    sums, and the row's group, cycle and battery id. *)
Definition command (table_name : string) (metric : summary -> float)
    (x : summary) : cql :=
  Update table_name [metric x] (summary_group x) (summary_cycle x)
    (summary_id x).

(** [rdd.foreachPartition(lambda entries: send_partition(entries,
    table_name))] on an RDD given by its partitions: the batches executed,
    partition after partition. *)
Definition foreachPartition (partitions : list (list entry))
    (table_name : string) : list (list cql) :=
  partitions ≫= fun entries =>
    send_partition entries table_name default_crit_size.

(** [input_rdd.foreachRDD(...)] of [save_to_database] on a DStream given by
    its micro-RDDs. *)
Definition foreachRDD (dstream : list (list (list entry)))
    (table_name : string) : list (list cql) :=
  dstream ≫= fun rdd => foreachPartition rdd table_name.

(** What [send_partition] does with its session, in order. *)
Inductive event : Type :=
| Connect
| Prepare (table_name : string)
| Execute (batch : list cql)
| ExecuteFailed (batch : list cql)
| Shutdown.

(** The loop of [send_partition] and the two calls after it, from the state
    [(batch, size)] reached after [n] calls of [db_session.execute].
    [fail] is the number of the call that raises, if one does; the function
    has no handler, so the exception leaves it at once.  The result is the
    events from here on and whether the function returned. *)
Fixpoint send_loop (table_name : string) (crit_size : Z) (fail : option nat)
    (entries : list entry) (batch : list cql) (size : Z) (n : nat)
    : list event * bool :=
  match entries with
  | [] =>
      if decide (fail = Some n) then ([ExecuteFailed batch], false)
      else ([Execute batch; Shutdown], true)
  | e :: entries' =>
      let batch' := batch ++ [bind_entry table_name e] in
      let size' := size + 1 in
      if size' =? crit_size then
        if decide (fail = Some n) then ([ExecuteFailed batch'], false)
        else
          let '(events, returned) :=
            send_loop table_name crit_size fail entries' [] 0 (S n) in
          (Execute batch' :: events, returned)
      else send_loop table_name crit_size fail entries' batch' size' n
  end.

(** [send_partition] with its session: connect, prepare, then the loop.
    Connecting and preparing are taken to succeed. *)
Definition send_partition_session (entries : list entry)
    (table_name : string) (crit_size : Z) (fail : option nat)
    : list event * bool :=
  let '(events, returned) :=
    send_loop table_name crit_size fail entries [] 0 0 in
  (Connect :: Prepare table_name :: events, returned).

(** Executing [batches] in order from call number [n], stopping at the call
    that raises. *)
Fixpoint attempt (fail : option nat) (n : nat) (batches : list (list cql))
    : list event * bool :=
  match batches with
  | [] => ([Shutdown], true)
  | b :: batches' =>
      if decide (fail = Some n) then ([ExecuteFailed b], false)
      else
        let '(events, returned) := attempt fail (S n) batches' in
        (Execute b :: events, returned)
  end.

(** * Properties *)

(** ** Float addition *)

(** *** Mantissa length and right shifts *)

(** The mantissa length [digits2_pos] is the binary logarithm plus one. *)
Lemma digits2_pos_size p : digits2_pos p = Pos.size p.
Proof. induction p as [p IH|p IH|]; simpl; congruence. Qed.

Lemma digits2_pos_log2 p : Z.pos (digits2_pos p) = Z.log2 (Z.pos p) + 1.
Proof.
  rewrite digits2_pos_size.
  destruct p as [p|p|]; simpl; try reflexivity; rewrite Pos2Z.inj_succ; lia.
Qed.

Lemma Zdigits2_log2 m : 0 < m -> Zdigits2 m = Z.log2 m + 1.
Proof. destruct m as [|p|p]; try lia. intros _. apply digits2_pos_log2. Qed.

(** One right shift halves the mantissa, keeps the lost bit as round bit
    and folds the former round bit into the sticky bit. *)
Lemma shr_1_m r : 0 <= shr_m r -> shr_m (shr_1 r) = shr_m r / 2
  /\ shr_r (shr_1 r) = Z.odd (shr_m r)
  /\ shr_s (shr_1 r) = orb (shr_r r) (shr_s r).
Proof.
  destruct r as [m r s]. simpl. intros Hm.
  destruct m as [|[p|p|]|p]; try lia; simpl; repeat split; try reflexivity.
  - rewrite Pos2Z.inj_xI. apply (Z.div_unique _ _ _ 1); lia.
  - rewrite Pos2Z.inj_xO. apply (Z.div_unique _ _ _ 0); lia.
Qed.

Lemma shr_inv_step M k r :
  0 <= M -> 0 <= k -> shr_inv M k r -> shr_inv M (k + 1) (shr_1 r).
Proof.
  intros HM Hk [Hm Hrs].
  assert (0 < 2 ^ k) as Hp by (apply Z.pow_pos_nonneg; lia).
  assert (0 <= shr_m r) as Hm0 by (rewrite Hm; apply Z.div_pos; lia).
  destruct (shr_1_m r Hm0) as (H1 & H2 & H3).
  split.
  - rewrite H1, Hm, Z.pow_add_r, Z.pow_1_r by lia. apply Z.div_div; lia.
  - rewrite H2, H3, Z.pow_add_r, Z.pow_1_r by lia.
    rewrite Z.rem_mul_r by lia. rewrite <- Hm.
    pose proof (Z.mod_pos_bound M (2 ^ k) Hp) as Hb.
    pose proof (Z.mod_pos_bound (shr_m r) 2 ltac:(lia)) as Hb2.
    rewrite orb_false_iff, Hrs.
    rewrite <- Z.negb_even, negb_false_iff, Z.even_spec.
    split.
    + intros [[q Hq] H0].
      assert (shr_m r mod 2 = 0) as ->.
      { rewrite Hq, Z.mul_comm. apply Z.mod_mul. lia. }
      lia.
    + intros H. assert (M mod 2 ^ k = 0 /\ shr_m r mod 2 = 0) as [Ha Hc] by nia.
      split; [|done]. exists (shr_m r / 2).
      pose proof (Z.div_mod (shr_m r) 2 ltac:(lia)). lia.
Qed.

Lemma iter_pos_shr_inv M p : 0 <= M ->
  forall k r, 0 <= k -> shr_inv M k r ->
    shr_inv M (k + Z.pos p) (SpecFloat.iter_pos shr_1 p r).
Proof.
  intros HM. induction p as [p IH|p IH|]; intros k r Hk Hr; simpl.
  - replace (k + Z.pos p~1) with ((k + 1 + Z.pos p) + Z.pos p) by lia.
    apply IH; [lia|]. apply IH; [lia|]. by apply shr_inv_step.
  - replace (k + Z.pos p~0) with ((k + Z.pos p) + Z.pos p) by lia.
    apply IH; [lia|]. by apply IH.
  - by apply shr_inv_step.
Qed.

Lemma shr_exact_spec M e n : 0 <= M ->
  let '(r, e') := shr (shr_record_of_loc M loc_Exact) e n in
  e' = e + Z.max 0 n /\ shr_inv M (Z.max 0 n) r.
Proof.
  intros HM. unfold shr. simpl.
  assert (shr_inv M 0 {| shr_m := M; shr_r := false; shr_s := false |}) as H0.
  { split; simpl; [by rewrite Z.div_1_r|]. by rewrite Z.mod_1_r. }
  destruct n as [|p|p]; simpl.
  - split; [lia|done].
  - split; [lia|]. rewrite Z.max_r by lia.
    apply (iter_pos_shr_inv M p HM 0 _ ltac:(lia) H0).
  - split; [lia|done].
Qed.

(** Rounding moves the truncated mantissa up by at most one, and not at all
    when nothing was lost. *)
Lemma round_nearest_even_bounds r :
  shr_m r <= round_nearest_even (shr_m r) (loc_of_shr_record r) <= shr_m r + 1
  /\ (orb (shr_r r) (shr_s r) = false ->
      round_nearest_even (shr_m r) (loc_of_shr_record r) = shr_m r).
Proof.
  destruct r as [m [] []]; simpl; try (split; [lia|done]).
  destruct (Z.even m); split; try lia; done.
Qed.

(** *** Rounding to nearest *)

Section Rounding.

Variables prec emax : Z.
Hypothesis Hprec : 0 < prec.

(** [binary_round_aux] on an exact input: truncate to the format's
    exponent, round, and renormalise. *)
Lemma binary_round_aux_spec s m e :
  0 < m ->
  let k1 := Z.max 0 (fexp prec emax (Zdigits2 m + e) - e) in
  exists m2,
    m / 2 ^ k1 <= m2 <= m / 2 ^ k1 + 1
    /\ (m mod 2 ^ k1 = 0 -> m2 = m / 2 ^ k1)
    /\ binary_round_aux prec emax s m e loc_Exact
       = rounded prec emax s m2 (e + k1).
Proof.
  intros Hm k1. unfold binary_round_aux, shr_fexp.
  pose proof (shr_exact_spec m e (fexp prec emax (Zdigits2 m + e) - e)
                ltac:(lia)) as H1.
  destruct (shr (shr_record_of_loc m loc_Exact) e _) as [r e1].
  destruct H1 as [-> [Hrm Hrs]]. fold k1 in Hrm, Hrs |- *.
  destruct (round_nearest_even_bounds r) as [Hb Hx].
  set (m2 := round_nearest_even (shr_m r) (loc_of_shr_record r)) in *.
  assert (0 <= m / 2 ^ k1) as Hq.
  { apply Z.div_pos; [lia|]. apply Z.pow_pos_nonneg; lia. }
  exists m2. rewrite <- Hrm. split; [done|]. split.
  { intros H0. apply Hx, Hrs, H0. }
  pose proof (shr_exact_spec m2 (e + k1)
                (fexp prec emax (Zdigits2 m2 + (e + k1)) - (e + k1))
                ltac:(lia)) as H2.
  destruct (shr (shr_record_of_loc m2 loc_Exact) (e + k1) _) as [r2 e2].
  destruct H2 as [-> [Hrm2 _]]. unfold rounded. rewrite Hrm2. reflexivity.
Qed.

Lemma shl_align_spec (m : positive) e e' :
  let '(mz, ez) := shl_align m e e' in
  ez = Z.min e e' /\ Z.pos mz = Z.pos m * 2 ^ (e - Z.min e e').
Proof.
  unfold shl_align. destruct (e' - e) as [|d|d] eqn:E.
  - rewrite Z.min_l by lia. rewrite Z.sub_diag. simpl. lia.
  - rewrite Z.min_l by lia. rewrite Z.sub_diag. simpl. lia.
  - rewrite Z.min_r by lia. split; [done|].
    replace (e - e') with (Z.pos d) by lia.
    clear E.
    induction d as [|d IH] using Pos.peano_ind.
    + simpl. lia.
    + rewrite Pos.iter_succ, Pos2Z.inj_xO, IH.
      rewrite Pos2Z.inj_succ, Z.pow_succ_r by lia. lia.
Qed.


(** The same for [binary_round], which first aligns the mantissa to the
    exponent of the format. *)
Lemma binary_round_spec s (M : positive) e :
  let e1 := fexp prec emax (Z.log2 (Z.pos M) + 1 + e) in
  let ez := Z.min e e1 in
  let m1 := Z.pos M * 2 ^ (e - ez) / 2 ^ (e1 - ez) in
  exists m2,
    m1 <= m2 <= m1 + 1
    /\ ((Z.pos M * 2 ^ (e - ez)) mod 2 ^ (e1 - ez) = 0 -> m2 = m1)
    /\ binary_round prec emax s M e = rounded prec emax s m2 e1.
Proof.
  intros e1 ez m1. unfold binary_round.
  rewrite digits2_pos_log2. fold e1.
  pose proof (shl_align_spec M e e1) as Ha.
  destruct (shl_align M e e1) as [Mz ez'].
  destruct Ha as [-> HMz]. fold ez in HMz |- *.
  assert (0 <= e - ez) as Hez by (subst ez; lia).
  assert (Zdigits2 (Z.pos Mz) + ez = Z.log2 (Z.pos M) + 1 + e) as Hd.
  { rewrite Zdigits2_log2 by lia. rewrite HMz.
    rewrite Z.log2_mul_pow2 by lia. lia. }
  destruct (binary_round_aux_spec s (Z.pos Mz) ez ltac:(lia))
    as (m2 & Hb & Hx & Hr).
  rewrite Hd in Hb, Hx, Hr. fold e1 in Hb, Hx, Hr.
  assert (Z.max 0 (e1 - ez) = e1 - ez) as Hk by (subst ez; lia).
  rewrite Hk in Hb, Hx, Hr. rewrite HMz in Hb, Hx.
  exists m2. split; [exact Hb|]. split; [exact Hx|].
  rewrite Hr. f_equal. subst ez. lia.
Qed.


(** Rounding is bounded below by every canonical number that is not above
    the rounded value. *)
Lemma round_lower s (M : positive) e (mx : positive) ex :
  canon prec emax mx ex -> e <= ex -> Z.pos mx * 2 ^ (ex - e) <= Z.pos M ->
  binary_round prec emax s M e = S754_infinity s
  \/ exists m3 e3,
       binary_round prec emax s M e = S754_finite s m3 e3
       /\ (ex < e3 \/ (e3 = ex /\ (mx <= m3)%positive)).
Proof.
  intros Hc He HM.
  assert (0 < 2 ^ (ex - e)) as Hpow by (apply Z.pow_pos_nonneg; lia).
  assert (Z.log2 (Z.pos mx) + (ex - e) <= Z.log2 (Z.pos M)) as HL.
  { rewrite Z.add_comm, <- Z.log2_mul_pow2 by lia. by apply Z.log2_le_mono. }
  pose proof (Z.log2_nonneg (Z.pos mx)) as HLx.
  destruct (binary_round_spec s M e) as (m2 & Hb & _ & Hr).
  cbv zeta in Hb, Hr.
  set (e1 := fexp prec emax (Z.log2 (Z.pos M) + 1 + e)) in *.
  assert (ex <= e1) as He1.
  { unfold canon in Hc. subst e1. unfold fexp in *. lia. }
  assert (SpecFloat.emin prec emax <= ex) as Hemin.
  { unfold canon in Hc. unfold fexp in Hc. lia. }
  rewrite Z.min_l, Z.sub_diag, Z.pow_0_r, Z.mul_1_r in Hb by lia.
  set (m1 := Z.pos M / 2 ^ (e1 - e)) in *.
  assert (0 < 2 ^ (e1 - e)) as Hpow1 by (apply Z.pow_pos_nonneg; lia).
  assert (1 <= m1) as Hm1.
  { apply Z.div_le_lower_bound; [lia|]. rewrite Z.mul_1_r.
    apply Z.log2_le_pow2; [lia|]. subst e1. unfold fexp. lia. }
  assert (e1 = ex -> Z.pos mx <= m1) as Hm1x.
  { intros E. apply Z.div_le_lower_bound; [lia|]. rewrite E. lia. }
  rewrite Hr. unfold rounded.
  rewrite Zdigits2_log2 by lia.
  set (k2 := Z.max 0 (fexp prec emax (Z.log2 m2 + 1 + e1) - e1)).
  pose proof (Z.log2_nonneg m2) as HL2.
  assert (SpecFloat.emin prec emax <= e1) as Hemin1 by lia.
  assert (0 <= k2 <= Z.log2 m2) as Hk2.
  { subst k2. unfold fexp. lia. }
  assert (1 <= m2 / 2 ^ k2) as Hm3.
  { apply Z.div_le_lower_bound; [apply Z.pow_pos_nonneg; lia|].
    rewrite Z.mul_1_r. apply Z.log2_le_pow2; lia. }
  destruct (m2 / 2 ^ k2) as [|p|p] eqn:E3; try lia.
  destruct (e1 + k2 <=? emax - prec); [|by left].
  right. exists p, (e1 + k2). split; [done|].
  destruct (Z.eq_dec (e1 + k2) ex) as [E|E]; [|left; lia].
  right. split; [done|].
  assert (k2 = 0) as Hk0 by lia.
  rewrite Hk0, Z.pow_0_r, Z.div_1_r in E3.
  assert (Z.pos mx <= m1) by (apply Hm1x; lia). lia.
Qed.

Lemma canon_lt_pow mx ex : canon prec emax mx ex -> Z.pos mx < 2 ^ prec.
Proof.
  intros Hc. apply Z.log2_lt_pow2; [lia|].
  unfold canon, fexp in Hc. lia.
Qed.

Lemma canon_normal mx ex :
  canon prec emax mx ex -> SpecFloat.emin prec emax < ex ->
  2 ^ (prec - 1) <= Z.pos mx.
Proof.
  intros Hc He. apply Z.log2_le_pow2; [lia|].
  unfold canon, fexp in Hc. lia.
Qed.

(** Rounding is bounded above by every canonical number that is not below
    the rounded value. *)
Lemma round_upper s (M : positive) e (mx : positive) ex :
  canon prec emax mx ex -> ex <= emax - prec ->
  SpecFloat.emin prec emax <= e -> e <= ex ->
  Z.pos M <= Z.pos mx * 2 ^ (ex - e) ->
  exists m3 e3,
    binary_round prec emax s M e = S754_finite s m3 e3
    /\ (e3 < ex \/ (e3 = ex /\ (m3 <= mx)%positive)).
Proof.
  intros Hc Hmax Hmin He HM.
  assert (0 < 2 ^ (ex - e)) as Hpow by (apply Z.pow_pos_nonneg; lia).
  assert (Z.log2 (Z.pos M) <= Z.log2 (Z.pos mx) + (ex - e)) as HL.
  { rewrite Z.add_comm, <- Z.log2_mul_pow2 by lia. by apply Z.log2_le_mono. }
  pose proof (Z.log2_nonneg (Z.pos mx)) as HLx.
  pose proof (Z.log2_nonneg (Z.pos M)) as HLM.
  pose proof (canon_lt_pow mx ex Hc) as Hmx.
  destruct (binary_round_spec s M e) as (m2 & Hb & Hx & Hr).
  cbv zeta in Hb, Hx, Hr.
  set (e1 := fexp prec emax (Z.log2 (Z.pos M) + 1 + e)) in *.
  assert (e1 <= ex) as He1.
  { unfold canon in Hc. subst e1. unfold fexp in *. lia. }
  assert (SpecFloat.emin prec emax <= e1) as Hemin1
    by (subst e1; unfold fexp; lia).
  rewrite Hr. unfold rounded. clear Hr.
  destruct (Z.le_gt_cases e1 e) as [Hle|Hgt].
  - (* The sum is representable at its own exponent: no bit is lost. *)
    rewrite Z.min_r in Hb, Hx by lia.
    rewrite Z.sub_diag, Z.pow_0_r, Z.div_1_r in Hb, Hx.
    rewrite Z.mod_1_r in Hx. specialize (Hx eq_refl). subst m2.
    assert (0 < 2 ^ (e - e1)) as Hp1 by (apply Z.pow_pos_nonneg; lia).
    rewrite Zdigits2_log2 by lia.
    rewrite Z.log2_mul_pow2 by lia.
    replace (e - e1 + Z.log2 (Z.pos M) + 1 + e1)
      with (Z.log2 (Z.pos M) + 1 + e) by lia.
    fold e1. rewrite Z.sub_diag. simpl Z.max.
    rewrite Z.pow_0_r, Z.div_1_r, Z.add_0_r.
    destruct (Z.pos M * 2 ^ (e - e1)) as [|p|p] eqn:E3; try lia.
    replace (e1 <=? emax - prec) with true by (symmetry; apply Z.leb_le; lia).
    exists p, e1. split; [done|].
    destruct (Z.eq_dec e1 ex) as [E|E]; [|left; lia].
    right. split; [done|].
    assert (e = ex) as -> by lia. rewrite <- E in E3.
    rewrite Z.sub_diag, Z.pow_0_r in HM, E3. lia.
  - rewrite Z.min_l in Hb, Hx by lia.
    rewrite Z.sub_diag, Z.pow_0_r, Z.mul_1_r in Hb, Hx.
    set (k1 := e1 - e) in *.
    assert (0 < 2 ^ k1) as Hp1 by (apply Z.pow_pos_nonneg; lia).
    set (m1 := Z.pos M / 2 ^ k1) in *.
    assert (Z.log2 (Z.pos M) < prec + k1) as HLk.
    { subst k1 e1. unfold fexp in *. lia. }
    assert (k1 <= Z.log2 (Z.pos M)) as HkL.
    { subst k1 e1. unfold fexp in *. unfold canon, fexp in Hc. lia. }
    assert (1 <= m1 < 2 ^ prec) as Hm1.
    { split.
      - apply Z.div_le_lower_bound; [lia|]. rewrite Z.mul_1_r.
        apply Z.log2_le_pow2; lia.
      - apply Z.div_lt_upper_bound; [lia|]. rewrite <- Z.pow_add_r by lia.
        apply Z.log2_lt_pow2; lia. }
    assert (e1 = ex -> m2 <= Z.pos mx) as Hsame.
    { intros E. assert (m1 <= Z.pos mx) as Hle1.
      { apply Z.lt_succ_r. apply Z.div_lt_upper_bound; [lia|].
        subst k1. rewrite E. nia. }
      destruct (Z.eq_dec m1 (Z.pos mx)) as [Em|Em]; [|lia].
      rewrite Hx; [lia|].
      pose proof (Z.div_mod (Z.pos M) (2 ^ k1) ltac:(lia)) as Hdm.
      pose proof (Z.mod_pos_bound (Z.pos M) (2 ^ k1) Hp1) as Hmb.
      fold m1 in Hdm. subst k1. rewrite E in *. nia. }
    rewrite Zdigits2_log2 by lia.
    pose proof (Z.log2_nonneg m2) as HL2.
    destruct (Z.eq_dec m2 (2 ^ prec)) as [Ep|Ep].
    + (* The mantissa was rounded up to the next binade. *)
      assert (e1 < ex) as Hlt.
      { destruct (Z.eq_dec e1 ex) as [E|E]; [|lia]. specialize (Hsame E). lia. }
      rewrite Ep, Z.log2_pow2 by lia.
      assert (Z.max 0 (fexp prec emax (prec + 1 + e1) - e1) = 1) as ->.
      { unfold fexp. lia. }
      rewrite Z.pow_1_r.
      assert (2 ^ prec / 2 = 2 ^ (prec - 1)) as ->.
      { replace prec with (prec - 1 + 1) at 1 by lia.
        rewrite Z.pow_add_r, Z.pow_1_r by lia.
        apply Z.div_mul. lia. }
      assert (0 < 2 ^ (prec - 1)) as Hpp by (apply Z.pow_pos_nonneg; lia).
      destruct (2 ^ (prec - 1)) as [|p|p] eqn:E3; try lia.
      replace (e1 + 1 <=? emax - prec) with true
        by (symmetry; apply Z.leb_le; lia).
      exists p, (e1 + 1). split; [done|].
      destruct (Z.eq_dec (e1 + 1) ex) as [E|E]; [|left; lia].
      right. split; [done|].
      pose proof (canon_normal mx ex Hc ltac:(lia)). lia.
    + assert (m2 < 2 ^ prec) as Hm2 by lia.
      assert (Z.log2 m2 < prec) as HL2p by (apply Z.log2_lt_pow2; lia).
      assert (Z.max 0 (fexp prec emax (Z.log2 m2 + 1 + e1) - e1) = 0) as ->.
      { unfold fexp. lia. }
      rewrite Z.pow_0_r, Z.div_1_r, Z.add_0_r.
      destruct m2 as [|p|p] eqn:E3; try lia.
      replace (e1 <=? emax - prec) with true by (symmetry; apply Z.leb_le; lia).
      exists p, e1. split; [done|].
      destruct (Z.eq_dec e1 ex) as [E|E]; [|left; lia].
      right. split; [done|]. specialize (Hsame E). lia.
Qed.

(** Rounding keeps the sign and never yields NaN. *)
Lemma round_sign s (M : positive) e :
  binary_round prec emax s M e = S754_zero s
  \/ (exists m3 e3, binary_round prec emax s M e = S754_finite s m3 e3)
  \/ binary_round prec emax s M e = S754_infinity s.
Proof.
  destruct (binary_round_spec s M e) as (m2 & Hb & _ & Hr).
  cbv zeta in Hb. rewrite Hr. unfold rounded.
  set (k2 := Z.max 0 _).
  set (e1 := fexp prec emax (Z.log2 (Z.pos M) + 1 + e)) in *.
  assert (0 <= m2 / 2 ^ k2) as H3.
  { apply Z.div_pos; [|apply Z.pow_pos_nonneg; lia].
    assert (0 <= Z.pos M * 2 ^ (e - Z.min e e1) / 2 ^ (e1 - Z.min e e1));
      [|lia].
    apply Z.div_pos; [|apply Z.pow_pos_nonneg; lia].
    apply Z.mul_nonneg_nonneg; [lia|]. apply Z.pow_nonneg. lia. }
  destruct (m2 / 2 ^ k2) as [|p|p]; try lia; [by left|].
  destruct (_ <=? _); [right; left; eauto|by right; right].
Qed.

Lemma bounded_canon m e :
  bounded prec emax m e = true ->
  canon prec emax m e /\ e <= emax - prec /\ SpecFloat.emin prec emax <= e.
Proof.
  unfold bounded, canonical_mantissa, canon.
  rewrite digits2_pos_log2. intros [H1 H2]%andb_true_iff.
  apply Z.eqb_eq in H1. apply Z.leb_le in H2.
  split; [done|]. split; [done|]. unfold fexp in H1. lia.
Qed.

Lemma shl_align_fst (m : positive) e e' :
  e' <= e -> Z.pos (fst (shl_align m e e')) = Z.pos m * 2 ^ (e - e').
Proof.
  intros H. pose proof (shl_align_spec m e e') as Hs.
  destruct (shl_align m e e') as [mz ez]. destruct Hs as [_ Hs].
  simpl. rewrite Hs. by rewrite Z.min_r by lia.
Qed.

Lemma SFleb_refl x : x <> S754_nan -> SFleb x x = true.
Proof.
  destruct x as [s|s| |s m e]; try done; intros _; unfold SFleb, SFcompare.
  - by destruct s.
  - rewrite Z.compare_refl, Pos.compare_cont_refl. by destruct s.
Qed.

(** Adding a number that is not below zero does not lower a float, unless
    the sum is NaN. *)
Lemma SFadd_nonneg_le (x d : spec_float) :
  SpecFloat.valid_binary prec emax x = true ->
  SpecFloat.valid_binary prec emax d = true ->
  SFleb (S754_zero false) d = true ->
  SFadd prec emax x d <> S754_nan ->
  SFleb x (SFadd prec emax x d) = true.
Proof.
  intros Hx Hd Hpos Hnan.
  destruct d as [sd|sd| |sd md ed]; try done.
  - (* adding a zero *)
    destruct x as [sx|sx| |sx mx ex]; try done.
    + by destruct sx, sd.
    + by destruct sx.
    + simpl. by apply SFleb_refl.
  - (* adding +infinity *)
    destruct sd; [done|].
    destruct x as [sx|sx| |sx mx ex]; try done. by destruct sx.
  - destruct sd; [done|].
    destruct x as [sx|sx| |sx mx ex]; try done.
    + by destruct sx.
    + simpl in Hx, Hd.
      destruct (bounded_canon mx ex Hx) as (Hcx & Hmx & Hex).
      destruct (bounded_canon md ed Hd) as (Hcd & Hmd & Hed).
      unfold SFadd.
      set (ez := IntDef.Z.min ex ed).
      assert (ez = Z.min ex ed) as Hez by reflexivity.
      pose proof (shl_align_fst mx ex ez ltac:(lia)) as Hx'.
      pose proof (shl_align_fst md ed ez ltac:(lia)) as Hd'.
      set (mx' := fst (shl_align mx ex ez)) in *.
      set (md' := fst (shl_align md ed ez)) in *.
      assert (0 < 2 ^ (ed - ez)) as Hp by (apply Z.pow_pos_nonneg; lia).
      change (cond_Zopp false (Z.pos md')) with (Z.pos md').
      destruct sx.
      * (* a negative accumulator *)
        change (cond_Zopp true (Z.pos mx')) with (Z.neg mx').
        destruct (Z.neg mx' + Z.pos md') as [|p|p] eqn:E; simpl.
        -- done.
        -- destruct (round_sign false p ez) as [->|[(m3 & e3 & ->)| ->]]; done.
        -- destruct (round_upper true p ez mx ex)
             as (m3 & e3 & -> & Hcmp); try done; try lia.
           unfold SFleb, SFcompare.
           destruct Hcmp as [Hlt|[-> Hle]].
           ++ apply Z.compare_gt_iff in Hlt. by rewrite Hlt.
           ++ rewrite Z.compare_refl.
              change (Pos.compare_cont Eq mx m3) with (Pos.compare mx m3).
              destruct (Pos.compare_spec mx m3); simpl; try done. lia.
      * (* a non-negative accumulator *)
        change (cond_Zopp false (Z.pos mx') + Z.pos md')
          with (Z.pos (mx' + md')). simpl.
        destruct (round_lower false (mx' + md') ez mx ex)
          as [->|(m3 & e3 & -> & Hcmp)]; try done; try lia.
        unfold SFleb, SFcompare.
        destruct Hcmp as [Hlt|[-> Hle]].
        -- apply Z.compare_lt_iff in Hlt. by rewrite Hlt.
        -- rewrite Z.compare_refl.
           change (Pos.compare_cont Eq mx m3) with (Pos.compare mx m3).
           destruct (Pos.compare_spec mx m3); simpl; try done. lia.
Qed.

End Rounding.

Lemma float_add_nonneg_le (a d : float) :
  (0 <=? d)%float = true -> PrimFloat.is_nan (a + d) = false ->
  (a <=? a + d)%float = true.
Proof.
  unfold PrimFloat.is_nan. intros Hd Hnan.
  apply negb_false_iff in Hnan.
  rewrite FloatAxioms.leb_spec in Hd.
  rewrite FloatAxioms.eqb_spec, FloatAxioms.add_spec in Hnan.
  rewrite FloatAxioms.leb_spec, FloatAxioms.add_spec. unfold SF64add in *.
  apply SFadd_nonneg_le; try apply Prim2SF_valid; try done.
  intros E. rewrite E in Hnan. done.
Qed.

(** *** Doubling: binary64 has [prec = 53], and 2 is [2^52 * 2^-51] *)

Lemma SFadd_self_double (x : spec_float) :
  SpecFloat.valid_binary FloatOps.prec FloatOps.emax x = true ->
  SFadd FloatOps.prec FloatOps.emax x x
  = SFmul FloatOps.prec FloatOps.emax
      (S754_finite false 4503599627370496 (-51)) x.
Proof.
  intros Hx. destruct x as [[]|[]| |s m e]; try reflexivity.
  simpl in Hx. destruct (bounded_canon _ _ m e Hx) as (Hc & Hmax & Hmin).
  unfold SFadd, SFmul.
  pose proof (shl_align_fst m e (IntDef.Z.min e e) ltac:(lia)) as Hm.
  replace (e - IntDef.Z.min e e) with 0 in Hm by lia.
  rewrite Z.pow_0_r, Z.mul_1_r in Hm. apply Pos2Z.inj in Hm. rewrite Hm.
  replace (IntDef.Z.min e e) with e by lia.
  assert (cond_Zopp s (Z.pos m) + cond_Zopp s (Z.pos m)
          = cond_Zopp s (Z.pos (m + m))) as -> by (destruct s; simpl; lia).
  assert (binary_normalize FloatOps.prec FloatOps.emax
            (cond_Zopp s (Z.pos (m + m))) e false
          = binary_round FloatOps.prec FloatOps.emax s (m + m) e) as ->
    by (by destruct s).
  change (xorb false s) with s.
  pose proof (Z.log2_nonneg (Z.pos m)) as HL.
  assert (Z.log2 (Z.pos (m + m)) = Z.log2 (Z.pos m) + 1) as HL2.
  { replace (Z.pos (m + m)) with (Z.pos m * 2 ^ 1) by lia.
    rewrite Z.log2_mul_pow2; lia. }
  assert (Z.log2 (Z.pos (4503599627370496 * m)) = Z.log2 (Z.pos m) + 52)
    as HL52.
  { replace (Z.pos (4503599627370496 * m)) with (Z.pos m * 2 ^ 52) by lia.
    rewrite Z.log2_mul_pow2; lia. }
  set (e1 := fexp FloatOps.prec FloatOps.emax (Z.log2 (Z.pos m) + 2 + e)).
  assert (e1 = e \/ e1 = e + 1) as He1.
  { subst e1. unfold canon, fexp in *. lia. }
  (* the sum *)
  destruct (binary_round_spec FloatOps.prec FloatOps.emax s (m + m) e)
    as (m2 & _ & Hx2 & ->).
  cbv zeta in Hx2. rewrite HL2 in Hx2 |- *.
  replace (Z.log2 (Z.pos m) + 1 + 1 + e)
    with (Z.log2 (Z.pos m) + 2 + e) in * by lia.
  fold e1 in Hx2 |- *.
  rewrite Z.min_l, Z.sub_diag, Z.pow_0_r, Z.mul_1_r in Hx2 by lia.
  (* the product *)
  destruct (binary_round_aux_spec FloatOps.prec FloatOps.emax s
              (Z.pos (4503599627370496 * m)) (-51 + e) ltac:(lia))
    as (m2' & _ & Hx2' & ->).
  cbv zeta in Hx2'. rewrite Zdigits2_log2, HL52 in Hx2' |- * by lia.
  replace (Z.log2 (Z.pos m) + 52 + 1 + (-51 + e))
    with (Z.log2 (Z.pos m) + 2 + e) in * by lia.
  fold e1 in Hx2' |- *.
  assert (Z.max 0 (e1 - (-51 + e)) = e1 - e + 51) as Hk by lia.
  rewrite Hk in *.
  replace (-51 + e + (e1 - e + 51)) with e1 by lia.
  f_equal. rewrite Hx2, Hx2'.
  - destruct He1 as [->| ->].
    + rewrite Z.sub_diag, Z.pow_0_r, Z.div_1_r.
      replace (e - e + 51) with 51 by lia.
      replace (Z.pos (4503599627370496 * m))
        with (Z.pos (m + m) * 2 ^ 51) by lia.
      rewrite Z.div_mul; lia.
    + replace (e + 1 - e) with 1 by lia. replace (1 + 51) with 52 by lia.
      replace (Z.pos (4503599627370496 * m))
        with (Z.pos m * 2 ^ 52) by lia.
      replace (Z.pos (m + m)) with (Z.pos m * 2 ^ 1) by lia.
      rewrite !Z.div_mul; lia.
  - destruct He1 as [->| ->].
    + replace (e - e + 51) with 51 by lia.
      replace (Z.pos (4503599627370496 * m))
        with (Z.pos (m + m) * 2 ^ 51) by lia.
      apply Z.mod_mul. lia.
    + replace (e + 1 - e + 51) with 52 by lia.
      replace (Z.pos (4503599627370496 * m))
        with (Z.pos m * 2 ^ 52) by lia.
      apply Z.mod_mul. lia.
  - destruct He1 as [->| ->].
    + rewrite Z.sub_diag, Z.pow_0_r. apply Z.mod_1_r.
    + replace (e + 1 - e) with 1 by lia.
      replace (Z.pos (m + m)) with (Z.pos m * 2 ^ 1) by lia.
      apply Z.mod_mul. lia.
Qed.

Lemma float_add_self (v : float) : (v + v = 2 * v)%float.
Proof.
  rewrite <- (SF2Prim_Prim2SF (v + v)), <- (SF2Prim_Prim2SF (2 * v)).
  rewrite FloatAxioms.add_spec, FloatAxioms.mul_spec.
  unfold SF64add, SF64mul.
  change (Prim2SF 2) with (S754_finite false 4503599627370496 (-51)).
  by rewrite SFadd_self_double by apply Prim2SF_valid.
Qed.

(** *** Signs *)

Lemma not_negative_cases x :
  not_negative x <->
  x = S754_nan \/ (exists s, x = S754_zero s) \/ x = S754_infinity false
  \/ exists m e, x = S754_finite false m e.
Proof.
  unfold not_negative. split.
  - intros [->|H]; [by left|]. right.
    destruct x as [s|[]| |[] m e]; try done; eauto.
  - intros [->|[[s ->]|[->|(m & e & ->)]]]; [by left|by right..].
Qed.

Section Sign.

Variables prec emax : Z.

Lemma iter_pos_shr_nonneg p r :
  0 <= shr_m r -> 0 <= shr_m (SpecFloat.iter_pos shr_1 p r).
Proof.
  revert r. induction p as [p IH|p IH|]; intros r Hr; simpl.
  - apply IH, IH. destruct (shr_1_m r Hr) as [-> _]. by apply Z.div_pos.
  - by apply IH, IH.
  - destruct (shr_1_m r Hr) as [-> _]. by apply Z.div_pos.
Qed.

Lemma shr_fexp_nonneg m e l :
  0 <= m -> 0 <= shr_m (shr_fexp prec emax m e l).1.
Proof.
  intros Hm. unfold shr_fexp, shr.
  assert (0 <= shr_m (shr_record_of_loc m l)) as H0.
  { by destruct l as [|[]]. }
  destruct (fexp prec emax (Zdigits2 m + e) - e); simpl; try done.
  by apply iter_pos_shr_nonneg.
Qed.

(** Rounding a non-negative mantissa with the positive sign, whatever was
    lost before, is not negative. *)
Lemma binary_round_aux_sign m e l :
  0 <= m ->
  not_negative (binary_round_aux prec emax false m e l).
Proof.
  intros Hm. unfold binary_round_aux.
  pose proof (shr_fexp_nonneg m e l Hm) as H1.
  destruct (shr_fexp prec emax m e l) as [r1 e1]. simpl in H1.
  assert (0 <= round_nearest_even (shr_m r1) (loc_of_shr_record r1)) as H2.
  { destruct (loc_of_shr_record r1) as [|[]]; simpl; try lia.
    destruct (Z.even _); lia. }
  pose proof (shr_fexp_nonneg _ e1 loc_Exact H2) as H3.
  destruct (shr_fexp prec emax _ e1 loc_Exact) as [r2 e2]. simpl in H3.
  destruct (shr_m r2) as [|p|p]; try lia.
  - by right.
  - destruct (_ <=? _); by right.
Qed.

Lemma SFmul_not_negative x y :
  not_negative x -> not_negative y -> not_negative (SFmul prec emax x y).
Proof.
  intros Hx%not_negative_cases Hy%not_negative_cases.
  destruct Hx as [->|[[sx ->]|[->|(mx & ex & ->)]]]; [by left|..];
    destruct Hy as [->|[[sy ->]|[->|(my & ey & ->)]]];
    try (by left); try (by right); try (by destruct sx); try (by destruct sy);
    try (by destruct sx, sy).
  simpl. by apply binary_round_aux_sign.
Qed.

Lemma SFdiv_not_negative x my ey :
  not_negative x -> not_negative (SFdiv prec emax x (S754_finite false my ey)).
Proof.
  intros Hx%not_negative_cases.
  destruct Hx as [->|[[sx ->]|[->|(mx & ex & ->)]]];
    [by left|by destruct sx; right|by right|].
  unfold SFdiv, SFdiv_core_binary.
  set (m' := match _ with 0 => Z.pos mx | Z.pos _ => _ | Z.neg _ => 0 end).
  assert (0 <= m') as Hm'.
  { subst m'. destruct (_ - _ - _); try lia. apply Z.shiftl_nonneg. lia. }
  pose proof (Z.div_eucl_eq m' (Z.pos my) ltac:(lia)) as Hq.
  pose proof (Z.mod_pos_bound m' (Z.pos my) ltac:(lia)) as Hr.
  unfold Z.modulo in Hr.
  destruct (Z.div_eucl m' (Z.pos my)) as [q r]. simpl.
  apply binary_round_aux_sign. nia.
Qed.

Lemma SFadd_not_negative x y :
  not_negative x -> not_negative y -> not_negative (SFadd prec emax x y).
Proof.
  intros Hx%not_negative_cases Hy%not_negative_cases.
  destruct Hx as [->|[[sx ->]|[->|(mx & ex & ->)]]]; [by left|..];
    destruct Hy as [->|[[sy ->]|[->|(my & ey & ->)]]];
    try (by left); try (by right); try (by destruct sx); try (by destruct sy);
    try (by destruct sx, sy; right).
  unfold SFadd.
  change (cond_Zopp false (Z.pos ?a) + cond_Zopp false (Z.pos ?b))
    with (Z.pos (a + b)).
  simpl.
  destruct (round_sign prec emax false
              ((shl_align mx ex (IntDef.Z.min ex ey)).1
               + (shl_align my ey (IntDef.Z.min ex ey)).1)
              (IntDef.Z.min ex ey))
    as [->|[(m3 & e3 & ->)| ->]]; by right.
Qed.

Lemma SFadd_nan_r x y : SFadd prec emax x y <> S754_nan -> y <> S754_nan.
Proof. intros H ->. apply H. by destruct x. Qed.

End Sign.

Lemma is_nan_spec x : PrimFloat.is_nan x = true <-> Prim2SF x = S754_nan.
Proof.
  unfold PrimFloat.is_nan. rewrite FloatAxioms.eqb_spec, negb_true_iff.
  destruct (Prim2SF x) as [[]|[]| |[] m e]; unfold SFeqb, SFcompare;
    rewrite ?Z.compare_refl, ?Pos.compare_cont_refl; simpl; split; done.
Qed.

Lemma float_not_negative_spec x :
  float_not_negative x <-> not_negative (Prim2SF x).
Proof.
  unfold float_not_negative, not_negative.
  by rewrite is_nan_spec, FloatAxioms.leb_spec.
Qed.

Lemma float_mul_not_negative x y :
  float_not_negative x -> float_not_negative y -> float_not_negative (x * y).
Proof.
  rewrite !float_not_negative_spec, FloatAxioms.mul_spec.
  apply SFmul_not_negative.
Qed.

Lemma float_add_not_negative x y :
  float_not_negative x -> float_not_negative y -> float_not_negative (x + y).
Proof.
  rewrite !float_not_negative_spec, FloatAxioms.add_spec.
  by apply SFadd_not_negative.
Qed.

Lemma float_div_not_negative x y my ey :
  Prim2SF y = S754_finite false my ey ->
  float_not_negative x -> float_not_negative (x / y).
Proof.
  intros Hy. rewrite !float_not_negative_spec, FloatAxioms.div_spec.
  unfold SF64div. rewrite Hy. apply SFdiv_not_negative.
Qed.

Lemma float_add_not_nan_r x y :
  PrimFloat.is_nan (x + y) = false -> PrimFloat.is_nan y = false.
Proof.
  intros H. apply not_true_iff_false. rewrite is_nan_spec.
  apply not_true_iff_false in H. rewrite is_nan_spec, FloatAxioms.add_spec in H.
  by apply SFadd_nan_r in H.
Qed.

(** *** Commutativity *)

Lemma SFadd_comm (p e : Z) (x y : spec_float) : SFadd p e x y = SFadd p e y x.
Proof.
  destruct x as [[]|[]| |sx mx ex], y as [[]|[]| |sy my ey]; try reflexivity.
  cbn [SFadd]. rewrite (Z.min_comm ey ex), Z.add_comm. reflexivity.
Qed.

Lemma float_add_comm (x y : float) : (x + y = y + x)%float.
Proof.
  rewrite <- (SF2Prim_Prim2SF (x + y)), <- (SF2Prim_Prim2SF (y + x)).
  rewrite !FloatAxioms.add_spec. unfold SF64add. now rewrite SFadd_comm.
Qed.


(** ** The Key Reducer *)

Lemma combine_comm (i j : metrics) : combine i j = combine j i.
Proof.
  unfold combine.
  rewrite (float_add_comm (capacity i)), (float_add_comm (energy i)),
    (float_add_comm (power i)), (Z.add_comm (counts i)).
  reflexivity.
Qed.

Lemma inst_key (x : key * measurement) : (inst x).1 = x.1.
Proof. by destruct x as [k [[[[? ?] ?] ?] ?]]. Qed.

Lemma inst_counts (x : key * measurement) : counts (inst x).2 = 1.
Proof. by destruct x as [k [[[[? ?] ?] ?] ?]]. Qed.

Lemma inst_fst (rdd : list (key * measurement)) : (inst <$> rdd).*1 = rdd.*1.
Proof.
  induction rdd as [|x rdd IH]; [done|].
  rewrite !fmap_cons, inst_key. by f_equal.
Qed.

(** The contributions of a reading whose current and voltages are not
    below zero are NaN or not below zero. *)
Lemma inst_not_negative k t
    (voltage current previous_voltage step_time : float) :
  (0 <=? current)%float = true ->
  (0 <=? voltage)%float = true ->
  (0 <=? previous_voltage)%float = true ->
  let c := (inst (k, (t, voltage, current, previous_voltage, step_time))).2 in
  float_not_negative (capacity c)
  /\ float_not_negative (energy c)
  /\ float_not_negative (power c).
Proof.
  intros Hc Hv Hp. simpl.
  assert (float_not_negative current) as Hc' by (by right).
  assert (float_not_negative voltage) as Hv' by (by right).
  assert (float_not_negative previous_voltage) as Hp' by (by right).
  assert (float_not_negative DELTA_TIME) as Hd by (by right).
  split; [|split].
  - eapply float_div_not_negative; [reflexivity|].
    by apply float_mul_not_negative.
  - eapply float_div_not_negative; [reflexivity|].
    apply float_mul_not_negative; [|done].
    apply float_mul_not_negative; [done|].
    by apply float_add_not_negative.
  - eapply float_div_not_negative; [reflexivity|].
    by apply float_mul_not_negative.
Qed.

Lemma merge_value_lookup {V} (f : V -> V -> V) (d : gmap key V) k v k' :
  merge_value f d (k, v) !! k' =
  if decide (k = k')
  then Some (match d !! k with Some a => f a v | None => v end)
  else d !! k'.
Proof. unfold merge_value. apply lookup_insert. Qed.

Lemma merge_value_dom {V} (f : V -> V -> V) (d : gmap key V) kv k :
  k ∈ dom (merge_value f d kv) <-> k = kv.1 \/ k ∈ dom d.
Proof.
  destruct kv as [k0 v]. unfold merge_value.
  rewrite dom_insert_L, elem_of_union, elem_of_singleton. done.
Qed.

Lemma foldl_merge_value_dom {V} (f : V -> V -> V) (rdd : list (key * V))
    (d : gmap key V) k :
  k ∈ dom (foldl (merge_value f) d rdd) <-> k ∈ rdd.*1 \/ k ∈ dom d.
Proof.
  revert d. induction rdd as [|kv rdd IH]; intros d; simpl.
  - rewrite elem_of_nil. tauto.
  - rewrite IH, merge_value_dom, elem_of_cons. tauto.
Qed.

Lemma merge_values_dom {V} (f : V -> V -> V) (rdd : list (key * V)) k :
  k ∈ dom (merge_values f rdd) <-> k ∈ rdd.*1.
Proof.
  unfold merge_values.
  rewrite foldl_merge_value_dom, dom_empty_L, elem_of_empty. tauto.
Qed.

Lemma elem_of_reduced (rdd : list (key * measurement)) k :
  k ∈ dom (merge_values combine (inst <$> rdd)) <-> k ∈ rdd.*1.
Proof. by rewrite merge_values_dom, inst_fst. Qed.

Lemma count_of_merge_value (d : gmap key metrics) x k :
  count_of (merge_value combine d (inst x)) k
  = count_of d k + (if decide (x.1 = k) then 1 else 0).
Proof.
  unfold count_of. destruct (inst x) as [k0 v] eqn:E.
  assert (k0 = x.1) as -> by (rewrite <- inst_key, E; done).
  assert (counts v = 1) as Hv by (rewrite <- (inst_counts x), E; done).
  rewrite merge_value_lookup.
  destruct (decide (x.1 = k)) as [->|]; [|lia].
  destruct (d !! k) as [a|]; simpl; lia.
Qed.

Lemma readings_of_cons {V} k (x : key * V) (rdd : list (key * V)) :
  readings_of k (x :: rdd)
  = (if decide (x.1 = k) then 1 else 0) + readings_of k rdd.
Proof.
  unfold readings_of. rewrite filter_cons.
  destruct (decide (x.1 = k)); simpl; lia.
Qed.

Lemma count_of_foldl (rdd : list (key * measurement)) (d : gmap key metrics) k :
  count_of (foldl (merge_value combine) d (inst <$> rdd)) k
  = count_of d k + readings_of k rdd.
Proof.
  revert d. induction rdd as [|x rdd IH]; intros d; simpl.
  - unfold readings_of. simpl. lia.
  - rewrite IH, count_of_merge_value, readings_of_cons. lia.
Qed.

Lemma count_of_merge_values (rdd : list (key * measurement)) k :
  count_of (merge_values combine (inst <$> rdd)) k = readings_of k rdd.
Proof.
  unfold merge_values. rewrite count_of_foldl.
  unfold count_of. by rewrite lookup_empty.
Qed.

Lemma readings_of_perm {V} k (rdd rdd' : list (key * V)) :
  rdd ≡ₚ rdd' -> readings_of k rdd' = readings_of k rdd.
Proof. intros H. unfold readings_of. by rewrite H. Qed.

Lemma summary_key_summarize (kv : key * metrics) :
  summary_key (summarize kv) = kv.1.
Proof. by destruct kv as [[[[? ?] ?] ?] [[[? ?] ?] ?]]. Qed.

Lemma summary_counts_summarize (kv : key * metrics) :
  summary_counts (summarize kv) = counts kv.2.
Proof. by destruct kv as [[[[? ?] ?] ?] [[[? ?] ?] ?]]. Qed.

Lemma filter_summarize_length k (l : list (key * metrics)) :
  length (filter (fun x => summary_key x = k) (summarize <$> l))
  = length (filter (fun kv => kv.1 = k) l).
Proof.
  induction l as [|kv l IH]; [done|].
  rewrite fmap_cons, !filter_cons, summary_key_summarize.
  destruct (decide (kv.1 = k)); simpl; by rewrite IH.
Qed.

Lemma filter_key_NoDup {V} k (l : list (key * V)) :
  NoDup l.*1 ->
  length (filter (fun kv => kv.1 = k) l)
  = if decide (k ∈ l.*1) then 1%nat else 0%nat.
Proof.
  induction l as [|kv l IH]; intros Hnd.
  - rewrite decide_False; [done|]. apply not_elem_of_nil.
  - rewrite fmap_cons in Hnd. apply NoDup_cons in Hnd as [Hnotin Hnd].
    rewrite filter_cons, fmap_cons. specialize (IH Hnd).
    destruct (decide (kv.1 = k)) as [<-|Hne]; simpl.
    + rewrite IH, decide_False by done.
      rewrite decide_True; [done|]. apply elem_of_cons; by left.
    + rewrite IH. destruct (decide (k ∈ l.*1)) as [Hin|Hnin].
      * rewrite decide_True; [done|]. apply elem_of_cons; by right.
      * rewrite decide_False; [done|]. intros [->|?]%elem_of_cons; done.
Qed.

Lemma elem_of_map_to_list_fst {V} (m : gmap key V) k :
  k ∈ (map_to_list m).*1 <-> k ∈ dom m.
Proof.
  rewrite elem_of_dom, list_elem_of_fmap. split.
  - intros [[k' v] [-> Hin]]. apply elem_of_map_to_list in Hin. eauto.
  - intros [v Hv]. exists (k, v). split; [done|]. by apply elem_of_map_to_list.
Qed.

(** A window of two readings reduces to the same dictionary in either
    order. *)
Lemma merge_values_swap (x y : key * measurement) :
  merge_values combine (inst <$> [x; y])
  = merge_values combine (inst <$> [y; x]).
Proof.
  unfold merge_values. simpl.
  destruct (inst x) as [kx vx], (inst y) as [ky vy].
  unfold merge_value. rewrite !lookup_empty.
  destruct (decide (kx = ky)) as [->|Hne].
  - rewrite !lookup_insert_eq, !insert_insert_eq. by rewrite combine_comm.
  - rewrite !lookup_insert_ne, !lookup_empty by done.
    by apply insert_insert_ne.
Qed.

(** C1: the contribution [inst] computes for a reading is the
    specification's [(current * 1.0 / 3.6e6,
    current * (voltage + previous_voltage) * 1.0 / (2 * 3.6e6),
    current * voltage / 1.0e3, 1)], and it is what [reduceByKey] folds into
    the accumulator of the reading's key.  For the two example readings in
    one window the only summary row is the discharge row of step D1 with
    capacity sum [2 * (2.0 / 3.6e6)] and count 2, and the discharge-capacity
    sink receives one command for the row [(g1, 1, bat1)] carrying that
    sum. *)
Theorem contribution_of_reading :
  (forall (k : key) (t : string)
      (voltage current previous_voltage step_time : float),
     inst (k, (t, voltage, current, previous_voltage, step_time))
     = (k, Spec.contribution voltage current previous_voltage))
  /\ (forall (d : gmap key metrics) (k : key) (t : string)
         (voltage current previous_voltage step_time : float),
        merge_value combine d
          (inst (k, (t, voltage, current, previous_voltage, step_time))) !! k
        = Some (match d !! k with
                | Some a =>
                    combine a
                      (Spec.contribution voltage current previous_voltage)
                | None => Spec.contribution voltage current previous_voltage
                end))
  /\ (exists energy_sum power_sum : float,
        summarize_step_data Builtin.py_int Builtin.py_float Example.window
        = Ok ([("D1", "g1", 1, "bat1", (2 * (2.0 / 3.6e6))%float,
                energy_sum, power_sum, 2)], [])
        /\ sinks ([("D1", "g1", 1, "bat1", (2 * (2.0 / 3.6e6))%float,
                   energy_sum, power_sum, 2)], [])
           = [ [[Update "discharge_capacity" [(2 * (2.0 / 3.6e6))%float]
                   "g1" 1 "bat1"]];
               [[]];
               [[Update "discharge_energy" [energy_sum] "g1" 1 "bat1"]];
               [[]] ]).
Proof.
  split; [reflexivity|]. split.
  - intros d k t v c pv st.
    change (inst (k, (t, v, c, pv, st)))
      with (k, Spec.contribution v c pv).
    rewrite merge_value_lookup. by rewrite decide_True.
  - eexists _, _. split; vm_compute; reflexivity.
Qed.

(** C2, the claim as stated fails: float addition is not associative.
    Three readings of one key with capacities 1e16, -1e16 and 1 sum to 1 in
    one order and to 0 in another, so the reduced windows differ, and
    [combine] is not associative on their contributions. *)
Lemma order_counterexample :
  [Example.r_a; Example.r_b; Example.r_c]
    ≡ₚ [Example.r_a; Example.r_c; Example.r_b]
  /\ capacity <$> merge_values combine
       (inst <$> [Example.r_a; Example.r_b; Example.r_c]) !! Example.k1
     = Some 1%float
  /\ capacity <$> merge_values combine
       (inst <$> [Example.r_a; Example.r_c; Example.r_b]) !! Example.k1
     = Some 0%float
  /\ merge_values combine (inst <$> [Example.r_a; Example.r_b; Example.r_c])
     <> merge_values combine (inst <$> [Example.r_a; Example.r_c; Example.r_b])
  /\ combine (combine (inst Example.r_a).2 (inst Example.r_b).2)
       (inst Example.r_c).2
     <> combine (inst Example.r_a).2
          (combine (inst Example.r_b).2 (inst Example.r_c).2).
Proof.
  split; [apply perm_skip, perm_swap|].
  split; [vm_compute; reflexivity|]. split; [vm_compute; reflexivity|].
  split.
  - intros H.
    apply (f_equal (fun m =>
             from_option (fun a => (capacity a =? 1)%float) false
               (m !! Example.k1))) in H.
    vm_compute in H. discriminate.
  - intros H. apply (f_equal (fun a => (capacity a =? 1)%float)) in H.
    vm_compute in H. discriminate.
Qed.

(** C2, amended: [combine] is commutative, and associative in its integer
    count; a window of two readings reduces to the same sums in either
    order; and reducing any permutation of a window's readings yields the
    same set of keys and the same sample count for every key. *)
Theorem reduction_order :
  (forall i j, combine i j = combine j i)
  /\ (forall i j k,
        counts (combine (combine i j) k) = counts (combine i (combine j k)))
  /\ (forall x y : key * measurement,
        merge_values combine (inst <$> [x; y])
        = merge_values combine (inst <$> [y; x]))
  /\ (forall rdd rdd' : list (key * measurement), rdd ≡ₚ rdd' ->
        dom (merge_values combine (inst <$> rdd'))
        = dom (merge_values combine (inst <$> rdd))
        /\ forall k,
             counts <$> merge_values combine (inst <$> rdd') !! k
             = counts <$> merge_values combine (inst <$> rdd) !! k).
Proof.
  split; [apply combine_comm|]. split.
  { intros i j k. unfold combine, counts. simpl. lia. }
  split; [apply merge_values_swap|].
  intros rdd rdd' Hp.
  assert (dom (merge_values combine (inst <$> rdd'))
          = dom (merge_values combine (inst <$> rdd))) as Hdom.
  { apply set_eq. intros k. rewrite !elem_of_reduced. by rewrite Hp. }
  split; [done|]. intros k.
  pose proof (count_of_merge_values rdd k) as H1.
  pose proof (count_of_merge_values rdd' k) as H2.
  rewrite (readings_of_perm k rdd rdd' Hp) in H2.
  unfold count_of in H1, H2.
  assert (is_Some (merge_values combine (inst <$> rdd') !! k)
          <-> is_Some (merge_values combine (inst <$> rdd) !! k)) as Hs.
  { rewrite <- !elem_of_dom. by rewrite Hdom. }
  destruct (merge_values combine (inst <$> rdd') !! k) as [a'|],
           (merge_values combine (inst <$> rdd) !! k) as [a|]; simpl.
  - f_equal. lia.
  - destruct Hs as [Hs _]. destruct Hs as [? ?]; [eauto|done].
  - destruct Hs as [_ Hs]. destruct Hs as [? ?]; [eauto|done].
  - done.
Qed.

Lemma reduction_order_witness :
  [Example.r_a; Example.r_b] ≡ₚ [Example.r_b; Example.r_a]
  /\ dom (merge_values combine (inst <$> [Example.r_b; Example.r_a]))
     = dom (merge_values combine (inst <$> [Example.r_a; Example.r_b]))
  /\ forall k,
       counts <$> merge_values combine
         (inst <$> [Example.r_b; Example.r_a]) !! k
       = counts <$> merge_values combine
           (inst <$> [Example.r_a; Example.r_b]) !! k.
Proof.
  split; [apply perm_swap|].
  apply (proj2 (proj2 (proj2 reduction_order))). apply perm_swap.
Defined.

(** C7, the claim as stated fails: a reading with a negative current has
    negative contributions.  Folding the second reading of
    [Example.falling] (current -2.0) lowers the capacity, energy and power
    sums its key held after the first. *)
Lemma monotone_counterexample :
  exists r1 r2 a1 a2,
    mapM (parse Builtin.py_int Builtin.py_float) Example.falling
    = Ok [r1; r2]
    /\ merge_values combine (inst <$> [r1]) !! Example.k1 = Some a1
    /\ merge_value combine (merge_values combine (inst <$> [r1])) (inst r2)
         !! Example.k1 = Some a2
    /\ (capacity a2 <? capacity a1)%float = true
    /\ (energy a2 <? energy a1)%float = true
    /\ (power a2 <? power a1)%float = true.
Proof. eexists _, _, _, _. repeat split; vm_compute; reflexivity. Qed.

(** C7, amended: a fold step replaces the accumulator of the reading's key
    by its field-wise sum with the reading's contribution (the contribution
    itself for a new key) and leaves every other key as it was; the sample
    count of the reading's key grows by exactly one and no sample count
    decreases.  The capacity, energy and power sums do not decrease when the
    reading's current, voltage and previous voltage are non-negative, and
    more generally each sum does not decrease when the reading's
    contribution to it is non-negative, provided the new sum is not NaN. *)
Theorem fold_step_monotone (d : gmap key metrics) (k : key) (t : string)
    (voltage current previous_voltage step_time : float) (k' : key) :
  let x := (k, (t, voltage, current, previous_voltage, step_time)) in
  let c := (inst x).2 in
  merge_value combine d (inst x) !! k'
  = (if decide (k = k')
     then Some (match d !! k' with
                | Some a => combine a c
                | None => c
                end)
     else d !! k')
  /\ count_of (merge_value combine d (inst x)) k = count_of d k + 1
  /\ count_of d k' <= count_of (merge_value combine d (inst x)) k'
  /\ forall a : metrics,
       counts (combine a c) = counts a + 1
       /\ ((0 <=? capacity c)%float = true ->
           PrimFloat.is_nan (capacity (combine a c)) = false ->
           (capacity a <=? capacity (combine a c))%float = true)
       /\ ((0 <=? energy c)%float = true ->
           PrimFloat.is_nan (energy (combine a c)) = false ->
           (energy a <=? energy (combine a c))%float = true)
       /\ ((0 <=? power c)%float = true ->
           PrimFloat.is_nan (power (combine a c)) = false ->
           (power a <=? power (combine a c))%float = true)
       /\ ((0 <=? current)%float = true ->
           (0 <=? voltage)%float = true ->
           (0 <=? previous_voltage)%float = true ->
           (PrimFloat.is_nan (capacity (combine a c)) = false ->
            (capacity a <=? capacity (combine a c))%float = true)
           /\ (PrimFloat.is_nan (energy (combine a c)) = false ->
               (energy a <=? energy (combine a c))%float = true)
           /\ (PrimFloat.is_nan (power (combine a c)) = false ->
               (power a <=? power (combine a c))%float = true)).
Proof.
  intros x c. split; [|split; [|split]].
  - change (inst x) with (k, c). rewrite merge_value_lookup.
    by destruct (decide (k = k')) as [->|].
  - rewrite count_of_merge_value. by rewrite decide_True.
  - rewrite count_of_merge_value. destruct (decide _); lia.
  - intros a. split; [unfold combine; simpl; lia|].
    unfold combine. cbn [capacity energy power].
    split; [apply float_add_nonneg_le|].
    split; [apply float_add_nonneg_le|].
    split; [apply float_add_nonneg_le|].
    intros Hc Hv Hp.
    destruct (inst_not_negative k t voltage current previous_voltage
                step_time Hc Hv Hp) as (H1 & H2 & H3).
    fold x in H1, H2, H3. fold c in H1, H2, H3.
    assert (forall s v : float,
              float_not_negative v -> PrimFloat.is_nan (s + v) = false ->
              (s <=? s + v)%float = true) as Hmono.
    { intros s v [Hn|Hn] Hs; [|by apply float_add_nonneg_le].
      apply float_add_not_nan_r in Hs. congruence. }
    repeat split; by apply Hmono.
Qed.

Lemma fold_step_monotone_witness :
  let a : metrics := (1.0%float, 2.0%float, 3.0%float, 1) in
  let c := (inst Example.r_c).2 in
  ((0 <=? 3.6e6)%float = true /\ (0 <=? 4.0)%float = true
   /\ PrimFloat.is_nan (capacity (combine a c)) = false
   /\ PrimFloat.is_nan (energy (combine a c)) = false
   /\ PrimFloat.is_nan (power (combine a c)) = false)
  /\ (capacity a <=? capacity (combine a c))%float = true
  /\ (energy a <=? energy (combine a c))%float = true
  /\ (power a <=? power (combine a c))%float = true.
Proof.
  intros a c.
  assert ((0 <=? 3.6e6)%float = true) as Hc by (vm_compute; reflexivity).
  assert ((0 <=? 4.0)%float = true) as Hv by (vm_compute; reflexivity).
  assert (PrimFloat.is_nan (capacity (combine a c)) = false) as H1
    by (vm_compute; reflexivity).
  assert (PrimFloat.is_nan (energy (combine a c)) = false) as H2
    by (vm_compute; reflexivity).
  assert (PrimFloat.is_nan (power (combine a c)) = false) as H3
    by (vm_compute; reflexivity).
  split; [repeat split; assumption|].
  destruct (proj2 (proj2 (proj2 (proj2 (proj2 (proj2 (proj2
              (fold_step_monotone ∅ Example.k1 "t" 4.0 3.6e6 4.0 0.0
                 Example.k1))) a)))) Hc Hv Hv) as (M1 & M2 & M3).
  split; [exact (M1 H1)|]. split; [exact (M2 H2)|exact (M3 H3)].
Defined.

(** C8: in the pre-routing output [summary_rdd] of a window, every key
    that occurs among the window's readings has exactly one row and every
    other key has none; each row counts all the readings of its key. *)
Theorem one_record_per_key (rdd : list (key * measurement)) (k : key) :
  length (filter (fun x => summary_key x = k) (summary_rdd rdd))
  = (if decide (k ∈ rdd.*1) then 1%nat else 0%nat)
  /\ Forall (fun x => summary_counts x = readings_of (summary_key x) rdd)
       (summary_rdd rdd).
Proof.
  unfold summary_rdd, total, reduceByKey. split.
  - rewrite filter_summarize_length, filter_key_NoDup
      by apply NoDup_fst_map_to_list.
    destruct (decide (k ∈ rdd.*1)) as [Hin|Hnin].
    + rewrite decide_True; [done|].
      by apply elem_of_map_to_list_fst, elem_of_reduced.
    + rewrite decide_False; [done|].
      by rewrite elem_of_map_to_list_fst, elem_of_reduced.
  - apply Forall_forall.
    intros x [[k' v] [-> Hin]]%list_elem_of_fmap.
    apply elem_of_map_to_list in Hin.
    rewrite summary_key_summarize, summary_counts_summarize. simpl.
    rewrite <- count_of_merge_values. unfold count_of. by rewrite Hin.
Qed.

(** ** The Batch Writer *)

Lemma send_entry_inv table sent s e :
  forall B, sender_inv table sent s ->
  sender_inv table (sent ++ [e]) (send_entry table B s e).
Proof.
  intros B [Hc Hs]. unfold send_entry.
  destruct (batch_size s + 1 =? B) eqn:E; split; simpl.
  - rewrite concat_app, fmap_app, <- Hc. simpl.
    by rewrite !app_nil_r, <- app_assoc.
  - done.
  - rewrite fmap_app, <- Hc. simpl. by rewrite app_assoc.
  - rewrite length_app. simpl. lia.
Qed.

Lemma send_entry_full table B n s e :
  0 < B -> Z.of_nat (length (cql_batch s)) = batch_size s ->
  sender_full B n s -> sender_full B (n + 1) (send_entry table B s e).
Proof.
  intros HB Hs [Hr Hn Hf]. unfold send_entry.
  destruct (batch_size s + 1 =? B) eqn:E; split; simpl.
  - lia.
  - apply Z.eqb_eq in E. rewrite length_app. simpl. nia.
  - apply Forall_app. split; [done|]. apply Forall_singleton.
    apply Z.eqb_eq in E. rewrite length_app. simpl. lia.
  - apply Z.eqb_neq in E. lia.
  - lia.
  - done.
Qed.

Lemma foldl_send_entry table B entries :
  sender_inv table entries (foldl (send_entry table B) sender_init entries)
  /\ (0 < B ->
      sender_full B (Z.of_nat (length entries))
        (foldl (send_entry table B) sender_init entries)).
Proof.
  induction entries as [|e entries [IH1 IH2]] using rev_ind.
  - split; [by split|]. intros HB. split; simpl; [lia|lia|constructor].
  - rewrite foldl_app. simpl. split.
    + by apply send_entry_inv.
    + intros HB. rewrite length_app. simpl.
      replace (Z.of_nat (length entries + 1))
        with (Z.of_nat (length entries) + 1) by lia.
      apply send_entry_full; [done|apply IH1|by apply IH2].
Qed.

Lemma send_partition_concat entries table B :
  concat (send_partition entries table B) = bind_entry table <$> entries.
Proof.
  unfold send_partition. rewrite concat_app. simpl. rewrite app_nil_r.
  apply (foldl_send_entry table B entries).
Qed.

Lemma ceil_div_flushes N B :
  0 < B -> 0 <= N ->
  N / B + 1 = Spec.ceil_div N B + (if N mod B =? 0 then 1 else 0).
Proof.
  intros HB HN. unfold Spec.ceil_div.
  pose proof (Z.div_mod N B ltac:(lia)) as Hdm.
  pose proof (Z.mod_pos_bound N B HB) as Hm.
  destruct (N mod B =? 0) eqn:E.
  - apply Z.eqb_eq in E.
    assert ((N + B - 1) / B = N / B) as ->; [|lia].
    symmetry. apply (Z.div_unique _ _ _ (B - 1)); lia.
  - apply Z.eqb_neq in E.
    assert ((N + B - 1) / B = N / B + 1) as ->; [|lia].
    symmetry. apply (Z.div_unique _ _ _ (N mod B - 1)); lia.
Qed.

Lemma execute_all_concat {V} (plus : list float -> option V -> option V)
    db batches :
  execute_all plus db batches = execute plus db (concat batches).
Proof.
  revert db. induction batches as [|b bs IH]; intros db; simpl; [done|].
  unfold execute_all, execute in *. simpl. rewrite IH. by rewrite foldl_app.
Qed.

Lemma execute_send_partition {V} (plus : list float -> option V -> option V)
    db entries table B :
  execute_all plus db (send_partition entries table B)
  = foldl (execute_cql plus) db (bind_entry table <$> entries).
Proof. by rewrite execute_all_concat, send_partition_concat. Qed.

(** Two commands for one row alter that row and no other: the second is
    applied to what the first leaves. *)
Lemma execute_two_same_row {V} (plus : list float -> option V -> option V)
    (db : store V) table (r : row) (s1 s2 : list float) :
  foldl (execute_cql plus) db
    [Update table s1 r.1.1 r.1.2 r.2; Update table s2 r.1.1 r.1.2 r.2]
  = partial_alter (fun old => plus s2 (plus s1 old)) (table, r) db.
Proof.
  destruct r as [[g c] id]. simpl. unfold execute_cql, cql_row, store in *.
  simpl. apply (partial_alter_partial_alter_eq (plus s2) (plus s1)).
Qed.

Lemma execute_entries_same_row {V}
    (plus : list float -> option V -> option V) (db : store V)
    (f : summary -> float) (x1 x2 : summary) table B :
  summary_group x1 = summary_group x2 ->
  summary_cycle x1 = summary_cycle x2 ->
  summary_id x1 = summary_id x2 ->
  execute_all plus db
    (send_partition
       ((fun x => (summary_group x, summary_cycle x, summary_id x, f x))
          <$> [x1; x2]) table B)
  = partial_alter (fun old => plus [f x2] (plus [f x1] old))
      (table, (summary_group x1, summary_cycle x1, summary_id x1)) db.
Proof.
  intros Hg Hc Hi. rewrite execute_send_partition.
  change (foldl (execute_cql plus) db
            [Update table [f x1] (summary_group x1) (summary_cycle x1)
               (summary_id x1);
             Update table [f x2] (summary_group x2) (summary_cycle x2)
               (summary_id x2)]
          = partial_alter (fun old => plus [f x2] (plus [f x1] old))
              (table, (summary_group x1, summary_cycle x1, summary_id x1))
              db).
  rewrite <- Hg, <- Hc, <- Hi.
  apply (execute_two_same_row plus db table
           (summary_group x1, summary_cycle x1, summary_id x1)).
Qed.

(** On a numeric column one bound value is added to the stored one, and an
    absent row is created with it. *)
Lemma partial_alter_add_metric (db : store float) r (v : float) :
  partial_alter (add_metric [v]) r db
  = <[r := match db !! r with
           | Some metric => (v + metric)%float
           | None => v
           end]> db.
Proof. unfold store in *. apply partial_alter_ext. by intros old <-. Qed.

(** C3, the claim as stated fails: the final [execute] is unconditional.
    Two entries with threshold 2, and 500 entries with the default
    threshold, are executed as two batches, the last one empty, where the
    claim gives one batch of 2 (of 500); no entry at all still executes one
    empty batch, where the claim gives none. *)
Lemma flush_counterexample :
  length (send_partition [Example.e1; Example.e1] "discharge_capacity" 2)
  = 2%nat
  /\ Spec.ceil_div 2 2 = 1
  /\ last (send_partition [Example.e1; Example.e1] "discharge_capacity" 2)
     = Some []
  /\ Spec.final_batch_size 2 2 = 2
  /\ length (send_partition (replicate 500 Example.e1) "discharge_capacity"
               default_crit_size) = 2%nat
  /\ Spec.ceil_div 500 default_crit_size = 1
  /\ last (send_partition (replicate 500 Example.e1) "discharge_capacity"
             default_crit_size) = Some []
  /\ Spec.final_batch_size 500 default_crit_size = 500
  /\ length (send_partition [] "discharge_capacity" default_crit_size)
     = 1%nat
  /\ Spec.ceil_div 0 default_crit_size = 0.
Proof. repeat split; vm_compute; reflexivity. Qed.

(** C3, amended: for [N] entries and a positive threshold [B] the Writer
    executes exactly [N / B + 1] batches, which is [ceil(N / B)] when [B]
    does not divide [N] and one more when it does: [N / B] full batches of
    [B] commands, then a final batch of [N mod B] commands, empty when [B]
    divides [N]; together they hold the entries' commands in order. *)
Theorem flushes_of_send_partition (entries : list entry) (table : string)
    (B : Z) :
  0 < B ->
  let N := Z.of_nat (length entries) in
  let flushes := send_partition entries table B in
  Z.of_nat (length flushes) = N / B + 1
  /\ Z.of_nat (length flushes)
     = Spec.ceil_div N B + (if N mod B =? 0 then 1 else 0)
  /\ (exists full final,
        flushes = full ++ [final]
        /\ Forall (fun b => Z.of_nat (length b) = B) full
        /\ Z.of_nat (length final) = N mod B)
  /\ concat flushes = bind_entry table <$> entries.
Proof.
  intros HB N flushes.
  destruct (foldl_send_entry table B entries) as [[Hc Hs] Hfull].
  destruct (Hfull HB) as [Hr Hn Hf].
  set (s := foldl (send_entry table B) sender_init entries) in *.
  assert (Z.of_nat (length (executed s)) = N / B) as Hq.
  { apply (Z.div_unique _ _ _ (batch_size s)); [lia|]. subst N. lia. }
  assert (batch_size s = N mod B) as Hm.
  { apply (Z.mod_unique _ _ (Z.of_nat (length (executed s)))); [lia|].
    subst N. lia. }
  assert (Z.of_nat (length flushes) = N / B + 1) as Hlen.
  { subst flushes. unfold send_partition. fold s.
    rewrite length_app. simpl. lia. }
  split; [done|]. split.
  { rewrite Hlen. apply ceil_div_flushes; [done|]. subst N. lia. }
  split.
  { exists (executed s), (cql_batch s). split; [done|]. split; [done|]. lia. }
  apply send_partition_concat.
Qed.

Lemma flushes_of_send_partition_witness :
  0 < 2
  /\ let entries := [Example.e1; Example.e1; Example.e1] in
     let N := Z.of_nat (length entries) in
     let flushes := send_partition entries "discharge_capacity" 2 in
     Z.of_nat (length flushes) = N / 2 + 1
     /\ Z.of_nat (length flushes)
        = Spec.ceil_div N 2 + (if N mod 2 =? 0 then 1 else 0)
     /\ (exists full final,
           flushes = full ++ [final]
           /\ Forall (fun b => Z.of_nat (length b) = 2) full
           /\ Z.of_nat (length final) = N mod 2)
     /\ concat flushes = bind_entry "discharge_capacity" <$> entries.
Proof.
  split; [lia|].
  apply (flushes_of_send_partition
           [Example.e1; Example.e1; Example.e1] "discharge_capacity" 2).
  lia.
Defined.

(** C5: the one command the Writer issues for an entry is the additive
    update [metric = ? + metric] of the row [(group, cycle, id)], with the
    entry's metric bound as a sequence of one value; whatever the column's
    [+] is, executing it leaves in that row the [+] of the bound sequence
    and of what the row held, and touches no other row.  On the store of
    the specification, where [+] adds the value to the number the row holds
    and an absent row is created with the value, the same entry written
    twice into an empty table leaves the row holding twice the metric. *)
Theorem additive_merge_write (g : string) (c : Z) (id : string) (v : float)
    (table : string) (B : Z) :
  let e := (g, c, id, v) in
  let r := (table, (g, c, id)) in
  concat (send_partition [e] table B) = [Update table [v] g c id]
  /\ (forall (V : Type) (plus : list float -> option V -> option V)
        (db : store V),
        execute_all plus db (send_partition [e] table B)
        = partial_alter (plus [v]) r db)
  /\ (forall db : store float,
        execute_all add_metric db (send_partition [e] table B)
        = <[r := match db !! r with
                 | Some metric => (v + metric)%float
                 | None => v
                 end]> db)
  /\ execute_all add_metric ∅ (send_partition [e] table B) = {[r := v]}
  /\ execute_all add_metric ∅ (send_partition [e; e] table B)
     = {[r := (2 * v)%float]}.
Proof.
  intros e r. split; [apply send_partition_concat|].
  split; [|split; [|split]].
  - intros V plus db. by rewrite execute_send_partition.
  - intros db. rewrite execute_send_partition.
    apply (partial_alter_add_metric db r v).
  - rewrite execute_send_partition.
    change (partial_alter (add_metric [v]) r (∅ : store float) = {[r := v]}).
    rewrite partial_alter_add_metric. unfold store.
    by rewrite lookup_empty, insert_empty.
  - rewrite execute_send_partition, <- float_add_self.
    change (foldl (execute_cql add_metric) (∅ : store float)
              [Update table [v] g c id; Update table [v] g c id]
            = {[r := (v + v)%float]}).
    rewrite (execute_two_same_row add_metric ∅ table (g, c, id) [v] [v]).
    unfold store. rewrite <- insert_empty. apply partial_alter_ext.
    by intros old <-.
Qed.

(** C9: two summary rows that share group, cycle and battery id are bound
    to commands for the same row [(group, cycle, id)] whatever their steps,
    in the capacity sinks and in the energy sinks: the step is not among
    the values bound.  Whatever the column's [+] is, executing the commands
    of the two rows alters that one row of the table and no other, the
    second value applied to what the first leaves.  For the steps D1 and D2
    of one battery, group and cycle in one window, the summary has two rows
    of different steps, and both the capacity and the energy sink send their
    two commands to the one row [(g1, 1, bat1)]. *)
Theorem step_dropped_before_write :
  (forall (x1 x2 : summary) (table : string) (B : Z),
     summary_group x1 = summary_group x2 ->
     summary_cycle x1 = summary_cycle x2 ->
     summary_id x1 = summary_id x2 ->
     let r := (summary_group x1, summary_cycle x1, summary_id x1) in
     cql_row (bind_entry table (capacity_entry x1)) = r
     /\ cql_row (bind_entry table (capacity_entry x2)) = r
     /\ cql_row (bind_entry table (energy_entry x1)) = r
     /\ cql_row (bind_entry table (energy_entry x2)) = r
     /\ forall (V : Type) (plus : list float -> option V -> option V)
          (db : store V),
          execute_all plus db
            (send_partition (capacity_entry <$> [x1; x2]) table B)
          = partial_alter
              (fun old =>
                 plus [summary_capacity x2] (plus [summary_capacity x1] old))
              (table, r) db
          /\ execute_all plus db
               (send_partition (energy_entry <$> [x1; x2]) table B)
             = partial_alter
                 (fun old =>
                    plus [summary_energy x2] (plus [summary_energy x1] old))
                 (table, r) db)
  /\ exists x1 x2 : summary,
       summarize_step_data Builtin.py_int Builtin.py_float Example.two_steps
       = Ok ([x1; x2], [])
       /\ summary_step x1 <> summary_step x2
       /\ (fun batches => (fun c => (cql_table c, cql_row c))
                            <$> concat batches)
            <$> sinks ([x1; x2], [])
          = [ [("discharge_capacity", ("g1", 1, "bat1"));
               ("discharge_capacity", ("g1", 1, "bat1"))];
              [];
              [("discharge_energy", ("g1", 1, "bat1"));
               ("discharge_energy", ("g1", 1, "bat1"))];
              [] ].
Proof.
  split.
  - intros x1 x2 table B Hg Hc Hi r.
    assert (forall f : summary -> float,
              cql_row (bind_entry table
                         (summary_group x2, summary_cycle x2, summary_id x2,
                          f x2)) = r) as Hrow.
    { intros f. subst r. rewrite Hg, Hc, Hi. reflexivity. }
    split; [reflexivity|]. split; [apply (Hrow summary_capacity)|].
    split; [reflexivity|]. split; [apply (Hrow summary_energy)|].
    intros V plus db. split.
    + apply (execute_entries_same_row plus db summary_capacity); done.
    + apply (execute_entries_same_row plus db summary_energy); done.
  - eexists _, _. split; [vm_compute; reflexivity|].
    split; [|vm_compute; reflexivity].
    intros H. vm_compute in H. discriminate.
Qed.

Lemma step_dropped_before_write_witness :
  (summary_group Example.x_D1 = summary_group Example.x_D2
   /\ summary_cycle Example.x_D1 = summary_cycle Example.x_D2
   /\ summary_id Example.x_D1 = summary_id Example.x_D2)
  /\ let r := (summary_group Example.x_D1, summary_cycle Example.x_D1,
               summary_id Example.x_D1) in
     cql_row (bind_entry "discharge_capacity" (capacity_entry Example.x_D1))
     = r
     /\ cql_row (bind_entry "discharge_capacity"
                   (capacity_entry Example.x_D2)) = r
     /\ cql_row (bind_entry "discharge_capacity" (energy_entry Example.x_D1))
        = r
     /\ cql_row (bind_entry "discharge_capacity" (energy_entry Example.x_D2))
        = r
     /\ forall (V : Type) (plus : list float -> option V -> option V)
          (db : store V),
          execute_all plus db
            (send_partition (capacity_entry <$> [Example.x_D1; Example.x_D2])
               "discharge_capacity" default_crit_size)
          = partial_alter
              (fun old =>
                 plus [summary_capacity Example.x_D2]
                   (plus [summary_capacity Example.x_D1] old))
              ("discharge_capacity", r) db
          /\ execute_all plus db
               (send_partition (energy_entry <$> [Example.x_D1; Example.x_D2])
                  "discharge_capacity" default_crit_size)
             = partial_alter
                 (fun old =>
                    plus [summary_energy Example.x_D2]
                      (plus [summary_energy Example.x_D1] old))
                 ("discharge_capacity", r) db.
Proof.
  split; [repeat split; reflexivity|].
  apply (proj1 step_dropped_before_write Example.x_D1 Example.x_D2
           "discharge_capacity" default_crit_size); reflexivity.
Defined.

(** ** The Step Router *)

Lemma step_is_nonempty letter x :
  summary_step x <> EmptyString ->
  step_is letter x = Ok (Spec.step_type letter x).
Proof.
  unfold step_is, Spec.step_type.
  destruct (summary_step x); [done|]. by intros _.
Qed.

Lemma rdd_filter_total {A} (p : A -> result bool) (q : A -> bool)
    (rdd : list A) :
  Forall (fun x => p x = Ok (q x)) rdd ->
  rdd_filter p rdd = Ok (filter (fun x => q x = true) rdd).
Proof.
  induction 1 as [|x rdd Hx _ IH]; [done|].
  simpl. rewrite Hx. simpl. rewrite IH. simpl.
  rewrite filter_cons. by destruct (q x).
Qed.

Lemma step_type_exclusive x :
  ~ (Spec.step_type "D" x = true /\ Spec.step_type "C" x = true).
Proof.
  unfold Spec.step_type.
  destruct (summary_step x) as [|c s]; [by intros [? _]|].
  intros [H1%Ascii.eqb_eq H2%Ascii.eqb_eq]. congruence.
Qed.

(** C4, the claim as stated fails: a row whose step is empty has no first
    character, and [x[0][0]] raises [IndexError] instead of dropping the
    row.  The parser accepts such a reading, so a window holding one fails
    as a whole: the row of step d1 that shares a window with it is emitted
    to no stream, though its first letter is D. *)
Lemma routing_counterexample :
  route [Example.x_empty] = Raise IndexError
  /\ route [Example.x_empty] <> Ok ([], [])
  /\ route [Example.x_d1; Example.x_empty] = Raise IndexError
  /\ Spec.step_type "D" Example.x_d1 = true
  /\ summarize_step_data Builtin.py_int Builtin.py_float [Example.no_step]
     = Raise IndexError.
Proof.
  split; [reflexivity|]. split; [discriminate|]. split; [reflexivity|].
  split; [reflexivity|]. vm_compute. reflexivity.
Qed.

(** C4, amended: for a window in which every row has a non-empty step, the
    router returns as discharge stream exactly the rows of the window whose
    step starts, uppercased, with D, and as charge stream exactly those
    whose step starts with C; a row with any other first letter is in
    neither, and no row is in both.  Steps d1, C and x go to discharge, to
    charge and to neither. *)
Theorem routing_by_step_letter (rdd : list summary) :
  Forall (fun x => summary_step x <> EmptyString) rdd ->
  let discharge := filter (fun x => Spec.step_type "D" x = true) rdd in
  let charge := filter (fun x => Spec.step_type "C" x = true) rdd in
  route rdd = Ok (discharge, charge)
  /\ (forall x, x ∈ discharge <-> x ∈ rdd /\ Spec.step_type "D" x = true)
  /\ (forall x, x ∈ charge <-> x ∈ rdd /\ Spec.step_type "C" x = true)
  /\ (forall x, ~ (x ∈ discharge /\ x ∈ charge))
  /\ route [Example.x_d1; Example.x_C; Example.x_x]
     = Ok ([Example.x_d1], [Example.x_C]).
Proof.
  intros Hne discharge charge. split; [|split; [|split; [|split]]].
  - unfold route.
    rewrite (rdd_filter_total (step_is "D") (Spec.step_type "D")),
      (rdd_filter_total (step_is "C") (Spec.step_type "C")).
    + done.
    + eapply Forall_impl; [exact Hne|]. intros x Hx.
      by apply step_is_nonempty.
    + eapply Forall_impl; [exact Hne|]. intros x Hx.
      by apply step_is_nonempty.
  - intros x. subst discharge. rewrite list_elem_of_filter. tauto.
  - intros x. subst charge. rewrite list_elem_of_filter. tauto.
  - intros x [[HD _]%list_elem_of_filter [HC _]%list_elem_of_filter].
    by apply (step_type_exclusive x).
  - reflexivity.
Qed.

Lemma routing_by_step_letter_witness :
  Forall (fun x => summary_step x <> EmptyString)
    [Example.x_d1; Example.x_C; Example.x_x]
  /\ route [Example.x_d1; Example.x_C; Example.x_x]
     = Ok (filter (fun x => Spec.step_type "D" x = true)
             [Example.x_d1; Example.x_C; Example.x_x],
           filter (fun x => Spec.step_type "C" x = true)
             [Example.x_d1; Example.x_C; Example.x_x]).
Proof.
  assert (Forall (fun x => summary_step x <> EmptyString)
            [Example.x_d1; Example.x_C; Example.x_x]) as H.
  { repeat constructor; discriminate. }
  split; [exact H|].
  exact (proj1 (routing_by_step_letter
                  [Example.x_d1; Example.x_C; Example.x_x] H)).
Defined.

(** ** The Record Parser *)

(** C6, the claim as stated fails: the parser checks neither the number of
    fields beyond the ninth nor that an identifier is non-empty.  A record
    with an empty battery id, one with ten fields and one with an empty
    step are all parsed, though the claim calls each of them malformed. *)
Lemma parse_counterexample :
  parse Builtin.py_int Builtin.py_float Example.no_battery_id
  = Ok (("", "g1", 1, "D1"),
        ("t", 4.0%float, 2.0%float, Builtin.decimal false 39 (-1), 0.0%float))
  /\ Spec.malformed Builtin.py_int Builtin.py_float Example.no_battery_id
     = true
  /\ parse Builtin.py_int Builtin.py_float Example.ten_fields
     = Ok (("bat1", "g1", 1, "D1"),
           ("t", 4.0%float, 2.0%float, Builtin.decimal false 39 (-1),
            0.0%float))
  /\ Spec.malformed Builtin.py_int Builtin.py_float Example.ten_fields = true
  /\ parse Builtin.py_int Builtin.py_float Example.no_step
     = Ok (("bat1", "g1", 1, ""),
           ("t", 4.0%float, 2.0%float, Builtin.decimal false 39 (-1),
            0.0%float))
  /\ Spec.malformed Builtin.py_int Builtin.py_float Example.no_step = true.
Proof. repeat split; vm_compute; reflexivity. Qed.

(** C6, amended: parsing raises exactly when the record has fewer than nine
    fields or a numeric position (cycle, voltage, current, previous voltage,
    step time) holds a value [int] or [float] rejects.  Otherwise it returns
    the reading made of the first nine trimmed fields, the numeric ones
    converted; further fields are ignored and empty identifiers are kept. *)
Theorem parse_outcome (py_int : string -> option Z)
    (py_float : string -> option float) (ln : message) :
  let x := parsed ln in
  match parse py_int py_float ln with
  | Raise _ => too_short x = true \/ Spec.non_numeric py_int py_float x = true
  | Ok r =>
      too_short x = false /\ Spec.non_numeric py_int py_float x = false
      /\ exists x0 x1 x2 x3 x4 x5 x6 x7 x8 rest cycle v c pv t,
           x = x0 :: x1 :: x2 :: x3 :: x4 :: x5 :: x6 :: x7 :: x8 :: rest
           /\ py_int x2 = Some cycle /\ py_float x5 = Some v
           /\ py_float x6 = Some c /\ py_float x7 = Some pv
           /\ py_float x8 = Some t
           /\ r = ((x0, x1, cycle, x3), (x4, v, c, pv, t))
  end.
Proof.
  intros x. unfold parse. fold x. clearbody x.
  destruct x as [|x0 [|x1 [|x2 [|x3 [|x4 [|x5 [|x6 [|x7 [|x8 rest]]]]]]]]];
    unfold paired, Spec.non_numeric, Spec.rejects, int, float_; simpl;
    some_or_none; simpl; auto.
  split; [done|]. split; [done|]. repeat eexists; eassumption.
Qed.

(** C10: the record [bat1,g1,-3,D1,t,4.0,2.0,3.9,0] is parsed, and the key
    of the reading carries the negative cycle -3: no range check is made on
    the cycle. *)
Theorem negative_cycle_accepted :
  exists k m,
    parse Builtin.py_int Builtin.py_float Example.negative_cycle = Ok (k, m)
    /\ k = ("bat1", "g1", -3, "D1")
    /\ key_cycle k < 0.
Proof.
  eexists _, _. split; [vm_compute; reflexivity|].
  split; [reflexivity|]. vm_compute. reflexivity.
Qed.

(** * Further properties *)

(** ** [split], [strip] and [parsed_rdd] *)


(** [split] never returns an empty list. *)
Lemma split_nonempty sep s : Str.split sep s <> [].
Proof.
  destruct s as [|c s]; simpl; [done|].
  destruct (Ascii.eqb c sep); [done|]. by destruct (Str.split sep s).
Qed.

Lemma split_cons sep c s :
  Str.split sep (String c s)
  = if Ascii.eqb c sep then EmptyString :: Str.split sep s
    else map_head (String c) (Str.split sep s).
Proof.
  simpl. destruct (Ascii.eqb c sep); [done|].
  pose proof (split_nonempty sep s). by destruct (Str.split sep s).
Qed.

(** One piece more than there are separators. *)
Lemma split_length sep s : length (Str.split sep s) = S (occurrences sep s).
Proof.
  induction s as [|c s IH]; [done|]. rewrite split_cons. simpl.
  destruct (Ascii.eqb c sep); simpl; [by rewrite IH|].
  rewrite <- IH. by destruct (Str.split sep s).
Qed.

Lemma split_no_sep sep s :
  Forall (fun f => contains sep f = false) (Str.split sep s).
Proof.
  induction s as [|c s IH]; [by repeat constructor|]. rewrite split_cons.
  destruct (Ascii.eqb c sep) eqn:E; [by constructor|].
  destruct IH as [|f fs Hf Hfs]; simpl; [constructor|].
  constructor; [|done]. simpl. by rewrite E.
Qed.

Lemma join_cons sep s l :
  l <> [] -> join sep (s :: l) = (s ++ String sep (join sep l))%string.
Proof. by destruct l. Qed.

(** Joining the pieces gives the string back. *)
Lemma join_split sep s : join sep (Str.split sep s) = s.
Proof.
  induction s as [|c s IH]; [done|]. rewrite split_cons.
  destruct (Ascii.eqb c sep) eqn:E.
  - apply Ascii.eqb_eq in E as ->.
    rewrite join_cons by apply split_nonempty. simpl. by rewrite IH.
  - pose proof (split_nonempty sep s) as Hne.
    destruct (Str.split sep s) as [|f l]; [done|].
    transitivity (String c (join sep (f :: l))); [by destruct l|].
    by rewrite IH.
Qed.

Lemma split_sep_free sep s : contains sep s = false -> Str.split sep s = [s].
Proof.
  induction s as [|c s IH]; [done|]. simpl.
  intros [E H]%orb_false_iff. rewrite E, IH by done. done.
Qed.

Lemma split_app_sep sep s t :
  contains sep s = false ->
  Str.split sep (s ++ String sep t) = s :: Str.split sep t.
Proof.
  induction s as [|c s IH]; simpl.
  - intros _. by rewrite Ascii.eqb_refl.
  - intros [E H]%orb_false_iff. rewrite E, IH by done. done.
Qed.

(** Splitting a join of separator-free pieces gives the pieces back. *)
Lemma split_join sep (l : list string) :
  l <> [] -> Forall (fun f => contains sep f = false) l ->
  Str.split sep (join sep l) = l.
Proof.
  intros Hne Hl. induction Hl as [|f l Hf Hl IH]; [done|].
  destruct l as [|g l].
  - simpl. by apply split_sep_free.
  - rewrite join_cons by done. rewrite split_app_sep by done.
    by rewrite IH.
Qed.

Lemma rstrip_nonspace c s :
  Str.isspace c = false -> Str.rstrip (String c s) = String c (Str.rstrip s).
Proof. intros H. simpl. rewrite H. by destruct (Str.rstrip s). Qed.

Lemma rstrip_idem s : Str.rstrip (Str.rstrip s) = Str.rstrip s.
Proof.
  induction s as [|c s IH]; [done|]. simpl.
  destruct (Str.rstrip s) as [|a r] eqn:E.
  - destruct (Str.isspace c) eqn:Hc; [done|]. simpl. by rewrite Hc.
  - change (Str.rstrip (String c (String a r))) with
      (match Str.rstrip (String a r) with
       | EmptyString =>
           if Str.isspace c then EmptyString else String c EmptyString
       | r' => String c r'
       end).
    by rewrite IH.
Qed.

Lemma lstrip_idem s : Str.lstrip (Str.lstrip s) = Str.lstrip s.
Proof.
  induction s as [|c s IH]; [done|]. simpl.
  destruct (Str.isspace c) eqn:Hc; [done|]. simpl. by rewrite Hc.
Qed.

Lemma lstrip_rstrip s : Str.lstrip (Str.rstrip s) = Str.rstrip (Str.lstrip s).
Proof.
  induction s as [|c s IH]; [done|].
  destruct (Str.isspace c) eqn:Hc.
  - simpl. rewrite Hc. rewrite <- IH.
    destruct (Str.rstrip s) as [|a r]; [done|]. simpl. by rewrite Hc.
  - rewrite rstrip_nonspace by done. simpl. rewrite Hc.
    by rewrite rstrip_nonspace.
Qed.

Lemma strip_lstrip s : Str.strip (Str.lstrip s) = Str.strip s.
Proof. unfold Str.strip. by rewrite lstrip_idem. Qed.

Lemma strip_rstrip s : Str.strip (Str.rstrip s) = Str.strip s.
Proof. unfold Str.strip. by rewrite <- !lstrip_rstrip, rstrip_idem. Qed.

(** Stripping twice is stripping once. *)
Lemma strip_idem s : Str.strip (Str.strip s) = Str.strip s.
Proof. unfold Str.strip at 2. by rewrite strip_rstrip, strip_lstrip. Qed.

Lemma lstrip_head s :
  match Str.lstrip s with
  | EmptyString => True
  | String c _ => Str.isspace c = false
  end.
Proof.
  induction s as [|c s IH]; [done|]. simpl.
  by destruct (Str.isspace c) eqn:Hc.
Qed.

Lemma rstrip_last s :
  match last_char (Str.rstrip s) with
  | None => True
  | Some c => Str.isspace c = false
  end.
Proof.
  induction s as [|c s IH]; [done|]. simpl.
  destruct (Str.rstrip s) as [|a r].
  - by destruct (Str.isspace c) eqn:Hc.
  - exact IH.
Qed.

(** A stripped string has no outer white space, and a string without
    outer white space is left alone. *)
Lemma strip_trimmed s : trimmed (Str.strip s).
Proof.
  split.
  - unfold Str.strip. rewrite <- lstrip_rstrip. apply lstrip_head.
  - apply rstrip_last.
Qed.

Lemma trimmed_strip s : trimmed s -> Str.strip s = s.
Proof.
  intros [Hh Hl]. unfold Str.strip.
  assert (Str.lstrip s = s) as ->.
  { destruct s as [|c s]; [done|]. simpl. by rewrite Hh. }
  clear Hh. induction s as [|c s IH]; [done|]. simpl in *.
  destruct s as [|a s].
  - simpl. by rewrite Hl.
  - rewrite IH by done. done.
Qed.

Lemma contains_lstrip c s :
  contains c s = false -> contains c (Str.lstrip s) = false.
Proof.
  induction s as [|a s IH]; [done|]. simpl.
  intros [E H]%orb_false_iff.
  destruct (Str.isspace a); [by apply IH|]. simpl. by rewrite E, H.
Qed.

Lemma contains_rstrip c s :
  contains c s = false -> contains c (Str.rstrip s) = false.
Proof.
  induction s as [|a s IH]; [done|]. simpl.
  intros [E H]%orb_false_iff. specialize (IH H).
  destruct (Str.rstrip s) as [|b r].
  - destruct (Str.isspace a); [done|]. simpl. by rewrite E.
  - simpl in *. by rewrite E, IH.
Qed.

Lemma contains_strip c s :
  contains c s = false -> contains c (Str.strip s) = false.
Proof. intros H. by apply contains_rstrip, contains_lstrip. Qed.

(** Stripping the whole string strips the first piece on the left and the
    last piece on the right, when the separator is not white space. *)
Lemma split_lstrip sep s :
  Str.isspace sep = false ->
  Str.split sep (Str.lstrip s) = map_head Str.lstrip (Str.split sep s).
Proof.
  intros Hsep. induction s as [|c s IH]; [done|].
  rewrite split_cons.
  destruct (Ascii.eqb c sep) eqn:E.
  - apply Ascii.eqb_eq in E as ->. simpl. rewrite Hsep.
    by rewrite split_cons, Ascii.eqb_refl.
  - simpl Str.lstrip. destruct (Str.isspace c) eqn:Hc.
    + rewrite IH. pose proof (split_nonempty sep s).
      destruct (Str.split sep s); [done|]. simpl. by rewrite Hc.
    + rewrite split_cons, E. pose proof (split_nonempty sep s).
      destruct (Str.split sep s); [done|]. simpl. by rewrite Hc.
Qed.

Lemma map_last_cons {A} (f : A -> A) x l :
  l <> [] -> map_last f (x :: l) = x :: map_last f l.
Proof. by destruct l. Qed.

Lemma map_last_nonempty {A} (f : A -> A) l : l <> [] -> map_last f l <> [].
Proof. destruct l as [|x [|y l]]; done. Qed.

Lemma split_rstrip sep s :
  Str.isspace sep = false ->
  Str.split sep (Str.rstrip s) = map_last Str.rstrip (Str.split sep s).
Proof.
  intros Hsep. induction s as [|c s IH]; [done|].
  pose proof (split_nonempty sep s) as Hne.
  rewrite (split_cons sep c s).
  destruct (Ascii.eqb c sep) eqn:E.
  - apply Ascii.eqb_eq in E as ->.
    rewrite rstrip_nonspace, split_cons, Ascii.eqb_refl by done.
    by rewrite IH, map_last_cons.
  - destruct (Str.isspace c) eqn:Hc.
    + simpl Str.rstrip. rewrite Hc.
      destruct (Str.rstrip s) as [|a r] eqn:Er.
      * destruct (Str.split sep s) as [|f [|g fs]]; [done|..]; simpl in *.
        -- injection IH as IH. by rewrite <- IH, Hc.
        -- by destruct fs.
      * rewrite (split_cons sep c (String a r)), E.
        replace (Str.split sep (String a r))
          with (map_last Str.rstrip (Str.split sep s)) by (symmetry; exact IH).
        destruct (Str.split sep s) as [|f [|g fs]]; [done|..].
        -- assert (Str.rstrip f = String a r) as Hf.
           { rewrite <- (join_split sep (String a r)), IH. done. }
           simpl. by rewrite Hf.
        -- rewrite (map_last_cons _ f (g :: fs)) by done. simpl map_head.
           by rewrite (map_last_cons _ (String c f) (g :: fs)).
    + rewrite rstrip_nonspace, split_cons, E, IH by done.
      destruct (Str.split sep s) as [|f [|g fs]]; [done|..].
      * change ([String c (Str.rstrip f)] = [Str.rstrip (String c f)]).
        by rewrite rstrip_nonspace.
      * rewrite (map_last_cons _ f (g :: fs)) by done. simpl map_head.
        by rewrite (map_last_cons _ (String c f) (g :: fs)).
Qed.

Lemma fmap_strip_map_head (l : list string) :
  Str.strip <$> map_head Str.lstrip l = Str.strip <$> l.
Proof. destruct l as [|f l]; [done|]. simpl. by rewrite strip_lstrip. Qed.

Lemma fmap_strip_map_last (l : list string) :
  Str.strip <$> map_last Str.rstrip l = Str.strip <$> l.
Proof.
  induction l as [|f l IH]; [done|]. destruct l as [|g l].
  - simpl. by rewrite strip_rstrip.
  - rewrite map_last_cons by done. by rewrite !fmap_cons, IH.
Qed.

(** The outer [strip] of [parsed_rdd] is absorbed by the inner ones. *)
Lemma parsed_split (ln : message) :
  parsed ln = Str.strip <$> Str.split "," ln.2.
Proof.
  unfold parsed, Str.strip at 2.
  rewrite split_rstrip, fmap_strip_map_last by done.
  by rewrite split_lstrip, fmap_strip_map_head.
Qed.

(** X1: the fields of a line.  [parsed_rdd] yields the comma-separated
    pieces of the message value, each stripped: stripping the whole value
    first changes nothing.  There is one field more than the value has
    commas (so never none), and no field starts or ends with white space or
    holds a comma. *)
Theorem parsed_fields (ln : message) :
  parsed ln = Str.strip <$> Str.split "," ln.2
  /\ length (parsed ln) = S (occurrences "," ln.2)
  /\ Forall (fun f => trimmed f /\ contains "," f = false) (parsed ln).
Proof.
  split; [apply parsed_split|]. rewrite parsed_split. split.
  - by rewrite length_fmap, split_length.
  - apply Forall_fmap. eapply Forall_impl; [apply split_no_sep|].
    intros f Hf. split; [apply strip_trimmed|by apply contains_strip].
Qed.

(** X2: parsing undoes joining.  A non-empty list of comma-free fields,
    joined with commas, is parsed back to the same fields, each stripped;
    fields without outer white space come back unchanged. *)
Theorem parsed_join (k : string) (fields : list string) :
  fields <> [] ->
  Forall (fun f => contains "," f = false) fields ->
  parsed (k, join "," fields) = Str.strip <$> fields
  /\ (Forall trimmed fields -> parsed (k, join "," fields) = fields).
Proof.
  intros Hne Hsep.
  assert (parsed (k, join "," fields) = Str.strip <$> fields) as H.
  { rewrite parsed_split. simpl. by rewrite split_join. }
  split; [done|]. intros Ht. rewrite H.
  clear H Hne Hsep. induction Ht as [|f l Hf _ IH]; [done|].
  by rewrite fmap_cons, trimmed_strip, IH.
Qed.

Lemma parsed_join_witness :
  ([" bat1"; "g1 "; " 1 "] <> []
   /\ Forall (fun f => contains "," f = false) [" bat1"; "g1 "; " 1 "])
  /\ parsed ("", join "," [" bat1"; "g1 "; " 1 "])
     = Str.strip <$> [" bat1"; "g1 "; " 1 "].
Proof.
  assert (Forall (fun f => contains "," f = false) [" bat1"; "g1 "; " 1 "])
    as H by (repeat constructor).
  split; [split; [discriminate|exact H]|].
  exact (proj1 (parsed_join "" [" bat1"; "g1 "; " 1 "]
                  ltac:(discriminate) H)).
Defined.

(** ** Exceptions of [paired_rdd], the filters and the whole function *)

(** X3: which exception [paired_rdd] raises.  The tuple is built left to
    right, so an unconvertible number at a position the record has raises
    [ValueError]; [IndexError] is raised only when every numeric position
    the record has converts and the record has fewer than nine fields; the
    reading is built exactly when neither is the case.  This holds for any
    behaviour of [int] and [float]. *)
Theorem paired_error (py_int : string -> option Z)
    (py_float : string -> option float) (x : list string) :
  match paired py_int py_float x with
  | Raise ValueError => Spec.non_numeric py_int py_float x = true
  | Raise IndexError =>
      Spec.non_numeric py_int py_float x = false /\ too_short x = true
  | Ok _ => Spec.non_numeric py_int py_float x = false /\ too_short x = false
  end.
Proof.
  destruct x as [|x0 [|x1 [|x2 [|x3 [|x4 [|x5 [|x6 [|x7 [|x8 rest]]]]]]]]];
    unfold paired, Spec.non_numeric, Spec.rejects, int, float_; simpl;
    some_or_none; simpl; auto.
Qed.

(** [x[0][0]] on an empty step. *)
Lemma step_is_empty letter x :
  summary_step x = EmptyString -> step_is letter x = Raise IndexError.
Proof. unfold step_is. by intros ->. Qed.

(** A filter raises as soon as one row has an empty step. *)
Lemma rdd_filter_empty_step letter (rdd : list summary) :
  Exists (fun x => summary_step x = EmptyString) rdd ->
  rdd_filter (step_is letter) rdd = Raise IndexError.
Proof.
  induction 1 as [x rdd Hx|x rdd _ IH]; simpl.
  - by rewrite step_is_empty.
  - destruct (summary_step x) as [|c s] eqn:E.
    + by rewrite step_is_empty.
    + rewrite step_is_nonempty by (by rewrite E). simpl. by rewrite IH.
Qed.

Lemma Forall_or_Exists_empty_step (rdd : list summary) :
  Forall (fun x => summary_step x <> EmptyString) rdd
  \/ Exists (fun x => summary_step x = EmptyString) rdd.
Proof.
  induction rdd as [|x rdd [IH|IH]]; [by left| |by right; right].
  destruct (summary_step x) as [|c s] eqn:E.
  - right. by left.
  - left. constructor; [by rewrite E|done].
Qed.

(** The two filters on rows that all have a step, and on rows one of
    which has none. *)
Lemma route_ok (rdd : list summary) :
  Forall (fun x => summary_step x <> EmptyString) rdd ->
  route rdd
  = Ok (filter (fun x => Spec.step_type "D" x = true) rdd,
        filter (fun x => Spec.step_type "C" x = true) rdd).
Proof.
  intros H. unfold route.
  rewrite (rdd_filter_total (step_is "D") (Spec.step_type "D")),
    (rdd_filter_total (step_is "C") (Spec.step_type "C")).
  - done.
  - eapply Forall_impl; [exact H|]. intros x Hx. by apply step_is_nonempty.
  - eapply Forall_impl; [exact H|]. intros x Hx. by apply step_is_nonempty.
Qed.

Lemma route_raise (rdd : list summary) :
  Exists (fun x => summary_step x = EmptyString) rdd ->
  route rdd = Raise IndexError.
Proof.
  intros H. unfold route. by rewrite (rdd_filter_empty_step "D") by done.
Qed.

(** X4: the outcome of the two step filters.  They return exactly when no
    row has an empty step, and then hold the rows whose step starts with D
    or d and with C or c respectively, in the order of the input; otherwise
    they raise [IndexError], and a row with an empty step exists. *)
Theorem route_outcome (rdd : list summary) :
  match route rdd with
  | Ok (discharge, charge) =>
      Forall (fun x => summary_step x <> EmptyString) rdd
      /\ discharge = filter (fun x => Spec.step_type "D" x = true) rdd
      /\ charge = filter (fun x => Spec.step_type "C" x = true) rdd
  | Raise e =>
      e = IndexError /\ Exists (fun x => summary_step x = EmptyString) rdd
  end.
Proof.
  destruct (Forall_or_Exists_empty_step rdd) as [H|H].
  - by rewrite route_ok.
  - by rewrite route_raise.
Qed.

(** [map] with a function that may raise: it returns when the function
    returns on every element, and raises what some element raises. *)
Lemma mapM_ok {A B} (f : A -> result B) (l : list A) (l' : list B) :
  mapM f l = Ok l' <-> Forall2 (fun x y => f x = Ok y) l l'.
Proof.
  revert l'. induction l as [|x l IH]; intros l'; simpl.
  - split; [intros [= <-]; constructor|by intros ->%Forall2_nil_inv_l].
  - destruct (f x) as [y|e] eqn:E; simpl.
    + destruct (mapM f l) as [k|e] eqn:E'; simpl.
      * split.
        -- intros [= <-]. constructor; [done|]. by apply IH.
        -- intros (y' & k' & Hy & Hk & ->)%Forall2_cons_inv_l.
           apply IH in Hk. rewrite E in Hy. by simplify_eq.
      * split; [done|].
        intros (y' & k' & Hy & Hk & ->)%Forall2_cons_inv_l.
        apply IH in Hk. done.
    + split; [done|].
      intros (y' & k' & Hy & Hk & ->)%Forall2_cons_inv_l.
      rewrite E in Hy. done.
Qed.

Lemma mapM_raise {A B} (f : A -> result B) (l : list A) e :
  mapM f l = Raise e -> Exists (fun x => f x = Raise e) l.
Proof.
  induction l as [|x l IH]; simpl; [done|].
  destruct (f x) as [y|e'] eqn:E; simpl.
  - destruct (mapM f l) as [k|e'] eqn:E'; simpl; [done|].
    intros [= ->]. right. by apply IH.
  - intros [= ->]. by left.
Qed.

Lemma summary_step_key (x : summary) :
  summary_step x = key_step (summary_key x).
Proof. by destruct x as [[[[[[[? ?] ?] ?] ?] ?] ?] ?]. Qed.

(** The summary has a row for a key exactly when a reading has it. *)
Lemma elem_of_summary_rdd (rdd : list (key * measurement)) (k : key) :
  (exists x, x ∈ summary_rdd rdd /\ summary_key x = k) <-> k ∈ rdd.*1.
Proof.
  rewrite <- elem_of_reduced, <- elem_of_map_to_list_fst.
  unfold summary_rdd, total, reduceByKey.
  set (l := map_to_list _). clearbody l. split.
  - intros (x & [kv [-> Hkv]]%list_elem_of_fmap & <-).
    rewrite summary_key_summarize. apply list_elem_of_fmap. eauto.
  - intros [kv [-> Hkv]]%list_elem_of_fmap.
    exists (summarize kv). split; [|apply summary_key_summarize].
    apply list_elem_of_fmap. eauto.
Qed.

Lemma summary_rdd_empty_step (rdd : list (key * measurement)) :
  Exists (fun x => summary_step x = EmptyString) (summary_rdd rdd)
  <-> Exists (fun r => key_step r.1 = EmptyString) rdd.
Proof.
  rewrite !Exists_exists. split.
  - intros (x & Hx & Hs). rewrite summary_step_key in Hs.
    assert (summary_key x ∈ rdd.*1) as Hin by (apply elem_of_summary_rdd; eauto).
    apply list_elem_of_fmap in Hin as (r & Hr & Hin). exists r.
    split; [done|]. by rewrite <- Hr.
  - intros (r & Hr & Hs).
    assert (r.1 ∈ rdd.*1) as Hin by (apply list_elem_of_fmap; eauto).
    apply elem_of_summary_rdd in Hin as (x & Hx & Hk). exists x.
    split; [done|]. by rewrite summary_step_key, Hk.
Qed.

(** X5: the outcome of [summarize_step_data] on a window.  It returns
    exactly when every line parses and no reading has an empty step, and
    then yields the two filtered views of the summary of the parsed
    readings.  An exception is the one some line's parsing raises, or an
    [IndexError] from a reading with an empty step when all lines parse:
    one bad line fails the whole window. *)
Theorem summarize_step_data_outcome (py_int : string -> option Z)
    (py_float : string -> option float) (kafka_stream : list message) :
  match summarize_step_data py_int py_float kafka_stream with
  | Ok (discharge, charge) =>
      exists rdd,
        Forall2 (fun ln r => parse py_int py_float ln = Ok r) kafka_stream rdd
        /\ Forall (fun r => key_step r.1 <> EmptyString) rdd
        /\ discharge
           = filter (fun x => Spec.step_type "D" x = true) (summary_rdd rdd)
        /\ charge
           = filter (fun x => Spec.step_type "C" x = true) (summary_rdd rdd)
  | Raise e =>
      Exists (fun ln => parse py_int py_float ln = Raise e) kafka_stream
      \/ (e = IndexError
          /\ exists rdd,
               Forall2 (fun ln r => parse py_int py_float ln = Ok r)
                 kafka_stream rdd
               /\ Exists (fun r => key_step r.1 = EmptyString) rdd)
  end.
Proof.
  unfold summarize_step_data.
  destruct (mapM (parse py_int py_float) kafka_stream) as [rdd|e] eqn:E; simpl.
  - apply mapM_ok in E.
    destruct (Forall_or_Exists_empty_step (summary_rdd rdd)) as [H|H].
    + rewrite route_ok by done. exists rdd. split; [done|].
      split; [|done]. apply Forall_forall. intros r Hr Hs.
      assert (Exists (fun x => summary_step x = EmptyString) (summary_rdd rdd))
        as Hex.
      { apply summary_rdd_empty_step, Exists_exists. eauto. }
      apply Exists_exists in Hex as (x & Hx & Hxs).
      rewrite Forall_forall in H. by apply (H x).
    + rewrite route_raise by done. right. split; [done|]. exists rdd.
      split; [done|]. by apply summary_rdd_empty_step.
  - left. by apply mapM_raise.
Qed.

(** ** [reduceByKey] key by key *)

Lemma values_of_cons {V} k (kv : key * V) rdd :
  values_of k (kv :: rdd)
  = if decide (kv.1 = k) then kv.2 :: values_of k rdd else values_of k rdd.
Proof. unfold values_of. rewrite filter_cons. by destruct (decide _). Qed.

(** The accumulator of a key after merging a list of pairs. *)
Lemma foldl_merge_value_lookup {V} (f : V -> V -> V) (rdd : list (key * V))
    (d : gmap key V) k :
  foldl (merge_value f) d rdd !! k
  = match d !! k with
    | Some a => Some (foldl f a (values_of k rdd))
    | None => reduce f (values_of k rdd)
    end.
Proof.
  revert d. induction rdd as [|[k0 v] rdd IH]; intros d.
  - simpl. by destruct (d !! k).
  - change (foldl (merge_value f) d ((k0, v) :: rdd))
      with (foldl (merge_value f) (merge_value f d (k0, v)) rdd).
    rewrite IH, merge_value_lookup, values_of_cons. simpl.
    destruct (decide (k0 = k)) as [->|Hne]; [|done].
    by destruct (d !! k).
Qed.

(** X6: what [reduceByKey] holds for a key.  The value of a key is the
    left fold of the function over the key's values in arrival order,
    starting from the first one; a key without values gets no pair, and the
    function is not applied to a key with a single value. *)
Theorem reduceByKey_per_key {V} (func : V -> V -> V) (rdd : list (key * V))
    (k : key) (v : V) :
  merge_values func rdd !! k = reduce func (values_of k rdd)
  /\ ((k, v) ∈ reduceByKey func rdd <-> reduce func (values_of k rdd) = Some v).
Proof.
  assert (merge_values func rdd !! k = reduce func (values_of k rdd)) as H.
  { unfold merge_values. by rewrite foldl_merge_value_lookup, lookup_empty. }
  split; [done|]. unfold reduceByKey. by rewrite elem_of_map_to_list, H.
Qed.

(** The total count does not depend on the order of the rows. *)
Lemma sum_counts_perm rows rows' :
  rows ≡ₚ rows' -> sum_counts rows = sum_counts rows'.
Proof.
  unfold sum_counts.
  induction 1 as [|x l l' _ IH|x y l|l l' l'' _ IH1 _ IH2];
    rewrite ?fmap_cons; simpl; lia.
Qed.

Lemma map_counts_insert d k a :
  d !! k = None -> map_counts (<[k := a]> d) = counts a + map_counts d.
Proof.
  intros H. unfold map_counts.
  rewrite (sum_counts_perm _ (summarize <$> ((k, a) :: map_to_list d))).
  - unfold sum_counts. rewrite !fmap_cons.
    by rewrite (summary_counts_summarize (k, a)).
  - apply fmap_Permutation. by apply map_to_list_insert.
Qed.

(** Merging one reading raises the total count by one. *)
Lemma map_counts_merge_value d (x : key * measurement) :
  map_counts (merge_value combine d (inst x)) = map_counts d + 1.
Proof.
  destruct (inst x) as [k c] eqn:E.
  assert (counts c = 1) as Hc by (rewrite <- (inst_counts x), E; done).
  unfold merge_value. destruct (d !! k) as [a|] eqn:Hk.
  - rewrite <- (insert_delete_eq d k (combine a c)).
    rewrite map_counts_insert by apply lookup_delete_eq.
    rewrite <- (insert_id d k a Hk) at 2.
    rewrite <- (insert_delete_eq d k a).
    rewrite map_counts_insert by apply lookup_delete_eq.
    unfold combine. simpl. lia.
  - rewrite map_counts_insert by done. lia.
Qed.

Lemma map_counts_foldl (rdd : list (key * measurement)) d :
  map_counts (foldl (merge_value combine) d (inst <$> rdd))
  = map_counts d + Z.of_nat (length rdd).
Proof.
  revert d. induction rdd as [|x rdd IH]; intros d; simpl; [lia|].
  rewrite IH, map_counts_merge_value. lia.
Qed.

(** X7: no reading is lost or counted twice.  The sample counts of the
    summary rows of a window add up to the number of readings in it. *)
Theorem counts_conserved (rdd : list (key * measurement)) :
  sum_counts (summary_rdd rdd) = Z.of_nat (length rdd).
Proof.
  unfold summary_rdd, total, reduceByKey, merge_values.
  change (map_counts (foldl (merge_value combine) ∅ (inst <$> rdd))
          = Z.of_nat (length rdd)).
  rewrite map_counts_foldl. unfold map_counts. by rewrite map_to_list_empty.
Qed.

Lemma values_of_notin {V} k (rdd : list (key * V)) :
  k ∉ rdd.*1 -> values_of k rdd = [].
Proof.
  induction rdd as [|kv rdd IH]; [done|]. rewrite fmap_cons, not_elem_of_cons.
  intros [Hne Hnin]. rewrite values_of_cons, decide_False by done. by apply IH.
Qed.

Lemma reduce_values_NoDup {V} (f : V -> V -> V) k v (rdd : list (key * V)) :
  NoDup rdd.*1 -> reduce f (values_of k rdd) = Some v <-> (k, v) ∈ rdd.
Proof.
  induction rdd as [|[k0 v0] rdd IH]; intros Hnd.
  - split; [done|by intros ?%elem_of_nil].
  - rewrite fmap_cons in Hnd. apply NoDup_cons in Hnd as [Hnin Hnd].
    rewrite values_of_cons, elem_of_cons. simpl in *.
    destruct (decide (k0 = k)) as [->|Hne].
    + rewrite values_of_notin by done. simpl. split.
      * intros [= ->]. by left.
      * intros [[= ->]|Hin]; [done|]. exfalso. apply Hnin.
        apply list_elem_of_fmap. by exists (k, v).
    + rewrite IH by done. split; [by right|].
      intros [[= ? ?]|?]; [congruence|done].
Qed.

(** With pairwise distinct keys [reduceByKey] returns its input, up to
    order. *)
Lemma reduceByKey_NoDup {V} (f : V -> V -> V) (rdd : list (key * V)) :
  NoDup rdd.*1 -> reduceByKey f rdd ≡ₚ rdd.
Proof.
  intros Hnd. unfold reduceByKey.
  assert (merge_values f rdd = list_to_map rdd) as ->.
  { apply map_eq. intros k. apply option_eq. intros v.
    unfold merge_values. rewrite foldl_merge_value_lookup, lookup_empty.
    rewrite reduce_values_NoDup by done. by apply elem_of_list_to_map. }
  by apply map_to_list_to_map.
Qed.

(** X8: readings with pairwise distinct keys are not combined.  The
    summary then holds, up to order, one row per reading with that reading's
    own capacity, energy and power: no addition takes place. *)
Theorem distinct_keys_pass_through (rdd : list (key * measurement)) :
  NoDup rdd.*1 -> summary_rdd rdd ≡ₚ (fun r => summarize (inst r)) <$> rdd.
Proof.
  intros Hnd. unfold summary_rdd, total.
  rewrite reduceByKey_NoDup by (by rewrite inst_fst).
  by rewrite <- list_fmap_compose.
Qed.

Lemma distinct_keys_pass_through_witness :
  NoDup [Example.r_a;
         (("bat2", "g1", 1, "C1"), ("t", 4.0, 2.0, 4.0, 0.0)%float)].*1
  /\ summary_rdd
       [Example.r_a;
        (("bat2", "g1", 1, "C1"), ("t", 4.0, 2.0, 4.0, 0.0)%float)]
     ≡ₚ (fun r => summarize (inst r))
          <$> [Example.r_a;
               (("bat2", "g1", 1, "C1"), ("t", 4.0, 2.0, 4.0, 0.0)%float)].
Proof.
  assert (NoDup [Example.r_a;
                 (("bat2", "g1", 1, "C1"),
                  ("t", 4.0, 2.0, 4.0, 0.0)%float)].*1) as H.
  { apply (bool_decide_unpack _). vm_compute. exact I. }
  split; [exact H|].
  exact (distinct_keys_pass_through _ H).
Defined.

(** ** The sinks, partitions and the session of [send_partition] *)

(** X9: what the four sinks send.  Whatever the batching, the commands
    are, in order, one per discharge row to [discharge_capacity] and one per
    charge row to [charge_capacity], each with the row's capacity sum, then
    the same for [discharge_energy] and [charge_energy] with the energy sum,
    every one addressed by the row's group, cycle and battery id.  The power
    sum, the sample count and the step of a row are never sent. *)
Theorem sinks_commands (discharge_rdd charge_rdd : list summary) :
  (fun batches => concat batches) <$> sinks (discharge_rdd, charge_rdd)
  = [ command "discharge_capacity" summary_capacity <$> discharge_rdd;
      command "charge_capacity" summary_capacity <$> charge_rdd;
      command "discharge_energy" summary_energy <$> discharge_rdd;
      command "charge_energy" summary_energy <$> charge_rdd ].
Proof.
  unfold sinks, save_to_database. rewrite !fmap_cons.
  rewrite !send_partition_concat, <- !list_fmap_compose. done.
Qed.

(** While the counter cannot reach the threshold nothing is executed. *)
Lemma foldl_send_entry_open table B (entries : list entry) :
  (B <= 0 \/ Z.of_nat (length entries) < B) ->
  foldl (send_entry table B) sender_init entries
  = Sender (bind_entry table <$> entries) (Z.of_nat (length entries)) [].
Proof.
  induction entries as [|e entries IH] using rev_ind; intros HB; [done|].
  rewrite foldl_app, length_app in *. simpl in *.
  rewrite IH by lia. unfold send_entry. simpl.
  replace (Z.of_nat (length entries) + 1 =? B) with false
    by (symmetry; apply Z.eqb_neq; lia).
  rewrite fmap_app. f_equal. lia.
Qed.

(** X10: a threshold that is never reached.  When [crit_size] is zero or
    negative, or larger than the number of entries, the counter never equals
    it, and all commands go out in one batch at the final [execute]: a
    non-positive threshold switches batching off. *)
Theorem send_partition_unbatched (entries : list entry) (table : string)
    (B : Z) :
  B <= 0 \/ Z.of_nat (length entries) < B ->
  send_partition entries table B = [bind_entry table <$> entries].
Proof.
  intros HB. unfold send_partition. by rewrite foldl_send_entry_open.
Qed.

Lemma send_partition_unbatched_witness :
  (0 <= 0 \/ Z.of_nat (length [Example.e1; Example.e1; Example.e1]) < 0)
  /\ send_partition [Example.e1; Example.e1; Example.e1] "discharge_energy" 0
     = [bind_entry "discharge_energy"
          <$> [Example.e1; Example.e1; Example.e1]].
Proof.
  assert (0 <= 0 \/ Z.of_nat (length [Example.e1; Example.e1; Example.e1]) < 0)
    as H by (left; lia).
  split; [exact H|].
  exact (send_partition_unbatched [Example.e1; Example.e1; Example.e1]
           "discharge_energy" 0 H).
Defined.

(** X11: [save_to_database] over micro-RDDs and partitions.  The commands
    executed are those of all entries, in order, however the entries are
    partitioned; the partitioning only sets the batch boundaries.  Every
    partition, an empty one too, costs one session with one [execute] more
    than it has full batches of 500, so the number of batches is the sum of
    [N / 500 + 1] over the partitions. *)
Theorem foreachRDD_commands (dstream : list (list (list entry)))
    (table : string) :
  concat (foreachRDD dstream table)
  = bind_entry table <$> concat (concat dstream)
  /\ Z.of_nat (length (foreachRDD dstream table))
     = foldr Z.add 0
         ((fun entries => Z.of_nat (length entries) / default_crit_size + 1)
            <$> concat dstream).
Proof.
  unfold foreachRDD, foreachPartition. split.
  - induction dstream as [|rdd dstream IH]; [done|].
    rewrite bind_cons, concat_cons, !concat_app, fmap_app, <- IH. f_equal.
    clear IH. induction rdd as [|es rdd IH]; [done|].
    rewrite bind_cons, concat_cons, concat_app, fmap_app, <- IH.
    by rewrite send_partition_concat.
  - induction dstream as [|rdd dstream IH]; [done|].
    rewrite bind_cons, concat_cons, length_app, fmap_app, foldr_app.
    rewrite Nat2Z.inj_add, IH. clear IH.
    generalize (foldr Z.add 0
      ((fun entries => Z.of_nat (length entries) / default_crit_size + 1)
         <$> concat dstream)).
    intros z. induction rdd as [|es rdd IH]; [simpl; lia|].
    rewrite bind_cons, length_app, Nat2Z.inj_add, <- Z.add_assoc, IH, fmap_cons.
    destruct (foldl_send_entry table default_crit_size es) as [_ Hfull].
    destruct (Hfull ltac:(done)) as [Hr Hn _].
    unfold send_partition. rewrite length_app.
    set (s := foldl (send_entry table default_crit_size) sender_init es) in *.
    assert (Z.of_nat (length (executed s))
            = Z.of_nat (length es) / default_crit_size) as Hq.
    { apply (Z.div_unique _ _ _ (batch_size s)); [lia|]. lia. }
    simpl. lia.
Qed.

(** The batches executed before the loop's current state are a prefix of
    those executed after it. *)
Lemma foldl_send_entry_executed table B (entries : list entry) batch size E :
  foldl (send_entry table B) (Sender batch size E) entries
  = let s := foldl (send_entry table B) (Sender batch size []) entries in
    Sender (cql_batch s) (batch_size s) (E ++ executed s).
Proof.
  revert batch size E.
  induction entries as [|e entries IH]; intros batch size E.
  - simpl. by rewrite app_nil_r.
  - change (foldl (send_entry table B) (Sender batch size E) (e :: entries))
      with (foldl (send_entry table B)
              (send_entry table B (Sender batch size E) e) entries).
    change (foldl (send_entry table B) (Sender batch size []) (e :: entries))
      with (foldl (send_entry table B)
              (send_entry table B (Sender batch size []) e) entries).
    unfold send_entry at 2 4. cbn [cql_batch batch_size executed].
    destruct (size + 1 =? B).
    + rewrite (IH [] 0 (E ++ _)), (IH [] 0 ([] ++ _)).
      cbn [cql_batch batch_size executed]. by rewrite <- app_assoc.
    + apply IH.
Qed.

(** The loop with a failing [execute] attempts the batches of
    [send_partition] in order. *)
Lemma send_loop_attempt table B fail (entries : list entry) batch size n :
  send_loop table B fail entries batch size n
  = attempt fail n
      (let s := foldl (send_entry table B) (Sender batch size []) entries in
       executed s ++ [cql_batch s]).
Proof.
  revert batch size n.
  induction entries as [|e entries IH]; intros batch size n.
  - simpl. by destruct (decide (fail = Some n)).
  - change (foldl (send_entry table B) (Sender batch size []) (e :: entries))
      with (foldl (send_entry table B)
              (send_entry table B (Sender batch size []) e) entries).
    unfold send_entry at 2. cbn [cql_batch batch_size executed].
    cbn [send_loop].
    destruct (size + 1 =? B).
    + rewrite foldl_send_entry_executed. cbn zeta.
      cbn [cql_batch batch_size executed]. rewrite <- app_assoc.
      cbn [app attempt].
      destruct (decide (fail = Some n)); [done|].
      by rewrite IH.
    + apply IH.
Qed.

(** The events of [attempt], by the number of the failing call. *)
Lemma attempt_outcome fail n (batches : list (list cql)) :
  attempt fail n batches
  = match fail with
    | Some m =>
        if decide (n <= m)%nat then
          match batches !! (m - n)%nat with
          | Some b =>
              ((Execute <$> take (m - n) batches) ++ [ExecuteFailed b], false)
          | None => ((Execute <$> batches) ++ [Shutdown], true)
          end
        else ((Execute <$> batches) ++ [Shutdown], true)
    | None => ((Execute <$> batches) ++ [Shutdown], true)
    end.
Proof.
  revert n. induction batches as [|b batches IH]; intros n.
  - simpl. destruct fail as [m|]; [|done].
    by destruct (decide (n <= m)%nat).
  - cbn [attempt]. destruct (decide (fail = Some n)) as [->|Hne].
    + rewrite decide_True by lia. by rewrite Nat.sub_diag.
    + rewrite IH. destruct fail as [m|]; [|done].
      assert (m <> n) by congruence.
      destruct (decide (n <= m)%nat) as [Hle|Hgt].
      * rewrite decide_True by lia.
        replace (m - n)%nat with (S (m - S n)) by lia.
        cbn [lookup list_lookup take]. 
        change ((b :: batches) !! S (m - S n)%nat)
          with (batches !! (m - S n)%nat).
        by destruct (batches !! (m - S n)%nat).
      * rewrite decide_False by lia. done.
Qed.

(** X12: the session of [send_partition].  It connects, prepares the
    statement for the table and executes the batches of [send_partition] in
    order.  When no [execute] raises the session is shut down after the last
    batch.  When the [n]-th [execute] raises, the batches before it have
    been executed, the failing one is not retried, no later batch is sent
    and the session is not shut down. *)
Theorem send_partition_session_trace (entries : list entry) (table : string)
    (B : Z) (fail : option nat) :
  let batches := send_partition entries table B in
  let completed :=
    (Connect :: Prepare table :: (Execute <$> batches) ++ [Shutdown], true) in
  send_partition_session entries table B fail
  = match fail with
    | Some n =>
        match batches !! n with
        | Some b =>
            (Connect :: Prepare table
               :: (Execute <$> take n batches) ++ [ExecuteFailed b], false)
        | None => completed
        end
    | None => completed
    end.
Proof.
  unfold send_partition_session, send_partition.
  rewrite send_loop_attempt, attempt_outcome.
  fold sender_init. cbn zeta.
  set (batches := executed _ ++ [cql_batch _]).
  destruct fail as [m|]; [|done]. simpl.
  rewrite Nat.sub_0_r. by destruct (batches !! m).
Qed.

(** ** The constants of [inst_rdd] *)

(** *** Multiplying by one: 1.0 is [2^52 * 2^-52] *)

Lemma SFmul_one (x : spec_float) :
  SpecFloat.valid_binary FloatOps.prec FloatOps.emax x = true ->
  SFmul FloatOps.prec FloatOps.emax x
    (S754_finite false 4503599627370496 (-52)) = x.
Proof.
  intros Hx. destruct x as [[]|[]| |s m e]; try reflexivity.
  simpl in Hx. destruct (bounded_canon _ _ m e Hx) as (Hc & Hmax & Hmin).
  unfold SFmul. rewrite xorb_false_r.
  pose proof (Z.log2_nonneg (Z.pos m)) as HL.
  assert (Z.log2 (Z.pos (m * 4503599627370496)) = Z.log2 (Z.pos m) + 52)
    as HL52.
  { replace (Z.pos (m * 4503599627370496)) with (Z.pos m * 2 ^ 52) by lia.
    rewrite Z.log2_mul_pow2; lia. }
  destruct (binary_round_aux_spec FloatOps.prec FloatOps.emax s
              (Z.pos (m * 4503599627370496)) (e + -52) ltac:(lia))
    as (m2 & _ & Hx2 & ->).
  cbv zeta in Hx2. rewrite Zdigits2_log2, HL52 in Hx2 |- * by lia.
  unfold canon in Hc.
  replace (Z.log2 (Z.pos m) + 52 + 1 + (e + -52))
    with (Z.log2 (Z.pos m) + 1 + e) in * by lia.
  rewrite Hc in Hx2 |- *.
  replace (Z.max 0 (e - (e + -52))) with 52 in * by lia.
  replace (e + -52 + 52) with e by lia.
  replace (Z.pos (m * 4503599627370496)) with (Z.pos m * 2 ^ 52) in Hx2
    by lia.
  rewrite Z.div_mul in Hx2 by lia.
  rewrite Hx2 by (apply Z.mod_mul; lia).
  unfold rounded. rewrite Zdigits2_log2, Hc by lia.
  rewrite Z.sub_diag. simpl Z.max. rewrite Z.pow_0_r, Z.div_1_r, Z.add_0_r.
  by rewrite (proj2 (Z.leb_le _ _) Hmax).
Qed.

Lemma float_mul_one (v : float) : (v * 1 = v)%float.
Proof.
  rewrite <- (SF2Prim_Prim2SF (v * 1)).
  rewrite FloatAxioms.mul_spec. unfold SF64mul.
  change (Prim2SF 1) with (S754_finite false 4503599627370496 (-52)).
  rewrite SFmul_one by apply Prim2SF_valid. apply SF2Prim_Prim2SF.
Qed.

(** *** Negation commutes with rounding *)

(** Rounding does not look at the sign. *)
Lemma binary_round_aux_opp prec emax s m e l :
  binary_round_aux prec emax (negb s) m e l
  = SFopp (binary_round_aux prec emax s m e l).
Proof.
  unfold binary_round_aux.
  destruct (shr_fexp prec emax m e l) as [r1 e1].
  destruct (shr_fexp prec emax _ e1 loc_Exact) as [r2 e2].
  destruct (shr_m r2); [done| |done].
  by destruct (e2 <=? emax - prec).
Qed.

Lemma SFmul_opp prec emax x y :
  SFmul prec emax (SFopp x) y = SFopp (SFmul prec emax x y).
Proof.
  destruct x as [sx|sx| |sx mx ex], y as [sy|sy| |sy my ey]; try done;
    simpl; rewrite <- ?negb_xorb_l; try done.
  apply binary_round_aux_opp.
Qed.

Lemma SFdiv_opp prec emax x y :
  SFdiv prec emax (SFopp x) y = SFopp (SFdiv prec emax x y).
Proof.
  destruct x as [sx|sx| |sx mx ex], y as [sy|sy| |sy my ey]; try done;
    simpl; rewrite <- ?negb_xorb_l; try done.
  destruct (SFdiv_core_binary _ _ _ _ _ _) as [[mz ez] lz].
  apply binary_round_aux_opp.
Qed.

Lemma float_mul_opp (x y : float) : (- x * y = - (x * y))%float.
Proof.
  rewrite <- (SF2Prim_Prim2SF (- x * y)), <- (SF2Prim_Prim2SF (- (x * y))).
  rewrite FloatAxioms.mul_spec, !FloatAxioms.opp_spec, FloatAxioms.mul_spec.
  unfold SF64mul. by rewrite SFmul_opp.
Qed.

Lemma float_div_opp (x y : float) : (- x / y = - (x / y))%float.
Proof.
  rewrite <- (SF2Prim_Prim2SF (- x / y)), <- (SF2Prim_Prim2SF (- (x / y))).
  rewrite FloatAxioms.div_spec, !FloatAxioms.opp_spec, FloatAxioms.div_spec.
  unfold SF64div. by rewrite SFdiv_opp.
Qed.

(** X13: [DELTA_TIME] has no effect.  Multiplying by [1.0] is exact in
    binary64 and [2 * ENG_CONVERSION] is [7.2e6], so the contribution of a
    reading is current / 3.6e6, current * (voltage + prev_voltage) / 7.2e6
    and current * voltage / 1.0e3, for all floats, infinities and NaN
    included.  The reading's date-time and step time are not used. *)
Theorem inst_delta_time (k : key) (date_time : string)
    (voltage current prev_voltage step_time : float) :
  inst (k, (date_time, voltage, current, prev_voltage, step_time))
  = (k, ((current / 3.6e6)%float,
         (current * (voltage + prev_voltage) / 7.2e6)%float,
         (current * voltage / 1.0e3)%float,
         1)).
Proof.
  unfold inst, DELTA_TIME. by rewrite !float_mul_one.
Qed.

(** X14: the contribution is odd in the current.  Negating the current
    of a reading negates its capacity, energy and power exactly and leaves
    the count at one: no absolute value is taken anywhere. *)
Theorem inst_opp_current (k : key) (date_time : string)
    (voltage current prev_voltage step_time : float) :
  let m := (inst (k, (date_time, voltage, current, prev_voltage,
                      step_time))).2 in
  inst (k, (date_time, voltage, (- current)%float, prev_voltage, step_time))
  = (k, ((- capacity m)%float, (- energy m)%float, (- power m)%float, 1)).
Proof.
  unfold inst. cbn. 
  by rewrite ?float_mul_opp, ?float_div_opp, ?float_mul_opp, ?float_div_opp.
Qed.
